(** * hippo: production settings and the builds URL table

    A shallow embedding of the two modules of the repository,
    [hippo/settings/production.py] and [builds/urls.py].

    - The settings module is a function of the process environment
      ([os.environ]), a finite map from variable names to strings.
    - The URL table is the list the module builds with [path(...)]; a
      request path is resolved against it the way Django's resolver
      does: patterns are tried in order, a route is compiled to literal
      text and typed parameters, and a parameter's converter is a regular
      expression matched against the captured segment.
    - The build lifecycle, which the two modules only refer to, is
      modelled from the specification; each such definition says so. *)

From Stdlib Require Import ZArith Lia Ascii String List.
From stdpp Require Import gmap strings list.
Import ListNotations.
Local Open Scope string_scope.
Set Warnings "-register-all".

(** The process environment, [os.environ]. *)
Abbreviation Environ := (gmap string string).

(** ** Python values that occur in the settings module *)

Inductive pyval : Type :=
  | PyNone
  | PyStr (s : string)
  | PyInt (n : Z)
  | PyBool (b : bool)
  | PyList (l : list pyval)
  | PyUUID (int : Z).

(** [os.environ.get(key, default)]: the variable's value, a [str], when
    the variable is set, and [default] otherwise.  With one argument the
    default is [None]. *)
Definition environ_get (environ : Environ) (key : string)
    (default : pyval) : pyval :=
  match environ !! key with
  | Some v => PyStr v
  | None => default
  end.

(** [str.split(sep)] for a one-character separator.  Every occurrence of
    the separator ends a field, so the result has one more element than
    the string has separators (CPython never returns the empty list when
    a separator is given). *)
Fixpoint split (sep : ascii) (s : string) : list string :=
  match s with
  | EmptyString => [EmptyString]
  | String c s' =>
      if Ascii.eqb c sep then EmptyString :: split sep s'
      else match split sep s' with
           | w :: ws => String c w :: ws
           | [] => [String c EmptyString]
           end
  end.

(** The method call [v.split(sep)] on a Python value: only [str] has the
    method, anything else raises [AttributeError] (here [None]). *)
Definition py_split (v : pyval) (sep : ascii) : option (list string) :=
  match v with
  | PyStr s => Some (split sep s)
  | _ => None
  end.

(** [sep.join(l)], the inverse of [split]. *)
Fixpoint join (sep : ascii) (l : list string) : string :=
  match l with
  | [] => EmptyString
  | [w] => w
  | w :: ws => w +:+ String sep (join sep ws)
  end.

Fixpoint count_char (c : ascii) (s : string) : nat :=
  match s with
  | EmptyString => 0
  | String d s' => (if Ascii.eqb d c then 1 else 0) + count_char c s'
  end.

(** ** [hippo/settings/production.py] *)

Module Settings.

(** Every name of the module is a function of [environ], the process
    environment the module is imported under. *)

Definition SECRET_KEY (environ : Environ) : pyval :=
  environ_get environ "PEGASUS_SECRET_KEY" PyNone.

Definition DEBUG (environ : Environ) : pyval := PyBool true.

Definition ALLOWED_HOSTS (environ : Environ)
    : option (list string) :=
  py_split
    (environ_get environ "PEGASUS_ALLOWED_HOSTS"
       (PyStr ".testhost,127.0.0.1,[::1]"))
    ","%char.

Definition INSTALLED_APPS (environ : Environ) : list string :=
  [ "django.contrib.admin";
    "django.contrib.auth";
    "django.contrib.contenttypes";
    "django.contrib.sessions";
    "django.contrib.messages";
    "django.contrib.staticfiles";
    "guardian";
    "accounts";
    "apps";
    "builds";
    "certificates";
    "domains";
    "envvars";
    "hippo";
    "releases" ].

Definition AUTHENTICATION_BACKENDS (environ : Environ) : list string :=
  [ "django.contrib.auth.backends.ModelBackend";
    "guardian.backends.ObjectPermissionBackend" ].

Definition MIDDLEWARE (environ : Environ) : list string :=
  [ "django.middleware.security.SecurityMiddleware";
    "django.contrib.sessions.middleware.SessionMiddleware";
    "django.middleware.common.CommonMiddleware";
    "django.middleware.csrf.CsrfViewMiddleware";
    "django.contrib.auth.middleware.AuthenticationMiddleware";
    "django.contrib.messages.middleware.MessageMiddleware";
    "django.middleware.clickjacking.XFrameOptionsMiddleware" ].

Definition ROOT_URLCONF (environ : Environ) : string := "hippo.urls".

(** [DATABASES]: a dict of dicts; the inner values are [str] except
    the default of ['PORT'], which the source writes as the integer
    [5432]. *)
Definition DATABASES (environ : Environ)
    : gmap string (gmap string pyval) :=
  {[ "default" :=
       <[ "ENGINE" := PyStr "django.db.backends.postgresql" ]>
      (<[ "NAME" := environ_get environ "PEGASUS_DATABASE_NAME" (PyStr "hippo") ]>
      (<[ "USER" := environ_get environ "PEGASUS_DATABASE_USER" (PyStr "postgres") ]>
      (<[ "PASSWORD" := environ_get environ "PEGASUS_DATABASE_PASSWORD" (PyStr "") ]>
      (<[ "HOST" := environ_get environ "PEGASUS_DATABASE_SERVICE_HOST" (PyStr "") ]>
      (<[ "PORT" := environ_get environ "PEGASUS_DATABASE_SERVICE_PORT" (PyInt 5432) ]>
       ∅))))) ]}.

Definition AUTH_USER_MODEL (environ : Environ) : string :=
  "accounts.CustomUser".

Definition REGISTRATION_MODE (environ : Environ) : pyval :=
  environ_get environ "PEGASUS_REGISTRATION_MODE" (PyStr "enabled").

Definition DEFAULT_DOMAIN (environ : Environ) : pyval :=
  environ_get environ "PEGASUS_DEFAULT_DOMAIN" (PyStr "hippo.test").

(** One database parameter, ['default'][k] of [DATABASES]. *)
Definition database_setting (environ : Environ) (k : string)
    : option pyval :=
  DATABASES environ !! "default" ≫= fun db => db !! k.


(** The settings of the module that are read from the environment, each
    with the variable it reads. *)
Inductive env_setting : Type :=
  | S_SECRET_KEY
  | S_ALLOWED_HOSTS
  | S_DATABASE_NAME
  | S_DATABASE_USER
  | S_DATABASE_PASSWORD
  | S_DATABASE_HOST
  | S_DATABASE_PORT
  | S_REGISTRATION_MODE
  | S_DEFAULT_DOMAIN.

Definition env_settings : list env_setting :=
  [ S_SECRET_KEY; S_ALLOWED_HOSTS; S_DATABASE_NAME; S_DATABASE_USER;
    S_DATABASE_PASSWORD; S_DATABASE_HOST; S_DATABASE_PORT;
    S_REGISTRATION_MODE; S_DEFAULT_DOMAIN ].

Definition env_var (s : env_setting) : string :=
  match s with
  | S_SECRET_KEY => "PEGASUS_SECRET_KEY"
  | S_ALLOWED_HOSTS => "PEGASUS_ALLOWED_HOSTS"
  | S_DATABASE_NAME => "PEGASUS_DATABASE_NAME"
  | S_DATABASE_USER => "PEGASUS_DATABASE_USER"
  | S_DATABASE_PASSWORD => "PEGASUS_DATABASE_PASSWORD"
  | S_DATABASE_HOST => "PEGASUS_DATABASE_SERVICE_HOST"
  | S_DATABASE_PORT => "PEGASUS_DATABASE_SERVICE_PORT"
  | S_REGISTRATION_MODE => "PEGASUS_REGISTRATION_MODE"
  | S_DEFAULT_DOMAIN => "PEGASUS_DEFAULT_DOMAIN"
  end.

(** The value the module computes for an environment-sourced setting
    ([None] in Rocq only if the module would raise, or the key is
    missing from [DATABASES]). *)
Definition setting_value (environ : Environ) (s : env_setting)
    : option pyval :=
  match s with
  | S_SECRET_KEY => Some (SECRET_KEY environ)
  | S_ALLOWED_HOSTS =>
      PyList ∘ map PyStr <$> ALLOWED_HOSTS environ
  | S_DATABASE_NAME => database_setting environ "NAME"
  | S_DATABASE_USER => database_setting environ "USER"
  | S_DATABASE_PASSWORD => database_setting environ "PASSWORD"
  | S_DATABASE_HOST => database_setting environ "HOST"
  | S_DATABASE_PORT => database_setting environ "PORT"
  | S_REGISTRATION_MODE => Some (REGISTRATION_MODE environ)
  | S_DEFAULT_DOMAIN => Some (DEFAULT_DOMAIN environ)
  end.

End Settings.

(** A value is sourced from an environment variable with a default: it
    is the variable's value when the variable is set, and the default
    otherwise. *)
Definition sourced_from (environ : Environ) (var : string)
    (default value : pyval) : Prop :=
  (∀ v, environ !! var = Some v → value = PyStr v) ∧
  (environ !! var = None → value = default).


(** ** Regular expressions

    The fragment of Python's [re] syntax that the path converters are
    written in: bracket classes, concatenation, alternation, repetition.
    Matching is by derivatives and decides whether the whole string
    belongs to the language of the expression. *)

Inductive regex : Type :=
  | Void
  | Eps
  | Cls (neg : bool) (ranges : list (ascii * ascii))
  | Seq (r1 r2 : regex)
  | Alt (r1 r2 : regex)
  | Star (r : regex).

Definition in_range (c : ascii) (r : ascii * ascii) : bool :=
  (N_of_ascii r.1 <=? N_of_ascii c)%N && (N_of_ascii c <=? N_of_ascii r.2)%N.

(** [[a-z0-9]] is [Cls false [(a,z); (0,9)]], [[^/]] is
    [Cls true [(/,/)]]. *)
Definition cls_match (neg : bool) (ranges : list (ascii * ascii)) (c : ascii)
    : bool :=
  xorb neg (existsb (in_range c) ranges).

Definition Chr (c : ascii) : regex := Cls false [(c, c)].
Definition Plus (r : regex) : regex := Seq r (Star r).

(** [r{n}] *)
Fixpoint Rep (n : nat) (r : regex) : regex :=
  match n with
  | O => Eps
  | S n' => Seq r (Rep n' r)
  end.

Fixpoint nullable (r : regex) : bool :=
  match r with
  | Void => false
  | Eps => true
  | Cls _ _ => false
  | Seq r1 r2 => nullable r1 && nullable r2
  | Alt r1 r2 => nullable r1 || nullable r2
  | Star _ => true
  end.

Fixpoint deriv (c : ascii) (r : regex) : regex :=
  match r with
  | Void => Void
  | Eps => Void
  | Cls neg ranges => if cls_match neg ranges c then Eps else Void
  | Seq r1 r2 =>
      if nullable r1 then Alt (Seq (deriv c r1) r2) (deriv c r2)
      else Seq (deriv c r1) r2
  | Alt r1 r2 => Alt (deriv c r1) (deriv c r2)
  | Star r' => Seq (deriv c r') (Star r')
  end.

Fixpoint fullmatch (r : regex) (s : string) : bool :=
  match s with
  | EmptyString => nullable r
  | String c s' => fullmatch (deriv c r) s'
  end.

(** The language of an expression, for reasoning about [fullmatch]. *)
Inductive Matches : regex → string → Prop :=
  | M_Eps : Matches Eps EmptyString
  | M_Cls neg ranges c :
      cls_match neg ranges c = true →
      Matches (Cls neg ranges) (String c EmptyString)
  | M_Seq r1 r2 s1 s2 :
      Matches r1 s1 → Matches r2 s2 → Matches (Seq r1 r2) (s1 +:+ s2)
  | M_AltL r1 r2 s : Matches r1 s → Matches (Alt r1 r2) s
  | M_AltR r1 r2 s : Matches r2 s → Matches (Alt r1 r2) s
  | M_StarNil r : Matches (Star r) EmptyString
  | M_StarCons r s1 s2 :
      Matches r s1 → Matches (Star r) s2 → Matches (Star r) (s1 +:+ s2).

(** ** Path converters ([django.urls.converters]) *)

Inductive converter : Type :=
  | IntConverter
  | StringConverter
  | UUIDConverter
  | SlugConverter
  | PathConverter.

Definition digit : regex := Cls false [("0", "9")]%char.
Definition hexdigit : regex := Cls false [("0", "9"); ("a", "f")]%char.

(** The class attribute [regex] of each converter.  [UUIDConverter]'s is
    [[0-9a-f]{8}-[0-9a-f]{4}-[0-9a-f]{4}-[0-9a-f]{4}-[0-9a-f]{12}]. *)
Definition converter_regex (c : converter) : regex :=
  match c with
  | IntConverter => Plus digit
  | StringConverter => Plus (Cls true [("/", "/")]%char)
  | UUIDConverter =>
      Seq (Rep 8 hexdigit) (Seq (Chr "-")
     (Seq (Rep 4 hexdigit) (Seq (Chr "-")
     (Seq (Rep 4 hexdigit) (Seq (Chr "-")
     (Seq (Rep 4 hexdigit) (Seq (Chr "-")
          (Rep 12 hexdigit))))))))
  | SlugConverter =>
      Plus (Cls false [("-", "-"); ("a", "z"); ("A", "Z"); ("0", "9");
                       ("_", "_")]%char)
  | PathConverter => Plus (Cls true [("010", "010")]%char)
  end.

(** The registered names, [get_converter]; an unknown name raises. *)
Definition get_converter (name : string) : option converter :=
  if String.eqb name "int" then Some IntConverter
  else if String.eqb name "path" then Some PathConverter
  else if String.eqb name "slug" then Some SlugConverter
  else if String.eqb name "str" then Some StringConverter
  else if String.eqb name "uuid" then Some UUIDConverter
  else None.

(** The value of a hexadecimal digit, either case, as [int(_, 16)]
    reads it. *)
Definition hex_value (c : ascii) : option Z :=
  let n := Z.of_N (N_of_ascii c) in
  if ((48 <=? n) && (n <=? 57))%Z then Some (n - 48)%Z
  else if ((97 <=? n) && (n <=? 102))%Z then Some (n - 87)%Z
  else if ((65 <=? n) && (n <=? 70))%Z then Some (n - 55)%Z
  else None.

Fixpoint int_of_digits (base : Z) (value : ascii → option Z) (acc : Z)
    (s : string) : option Z :=
  match s with
  | EmptyString => Some acc
  | String c s' =>
      match value c with
      | Some d =>
          if (d <? base)%Z
          then int_of_digits base value (base * acc + d)%Z s'
          else None
      | None => None
      end
  end.

Fixpoint remove_char (c : ascii) (s : string) : string :=
  match s with
  | EmptyString => EmptyString
  | String d s' =>
      if Ascii.eqb d c then remove_char c s' else String d (remove_char c s')
  end.

(** [uuid.UUID(hex)]: the hyphens are dropped, what is left must be 32
    hexadecimal digits, and the object is the 128-bit integer they
    denote.  (CPython also strips a [urn:uuid:] prefix and braces; those
    forms are left out, so this constructor accepts no more than
    CPython's.)  [None] is [ValueError]. *)
Definition uuid_UUID (hex : string) : option Z :=
  let h := remove_char "-" hex in
  if Nat.eqb (String.length h) 32 then int_of_digits 16 hex_value 0 h
  else None.

(** [converter.to_python(value)]; [None] is [ValueError]. *)
Definition to_python (c : converter) (value : string) : option pyval :=
  match c with
  | IntConverter => PyInt <$> int_of_digits 10 hex_value 0 value
  | UUIDConverter => PyUUID <$> uuid_UUID value
  | StringConverter | SlugConverter | PathConverter => Some (PyStr value)
  end.

(** ** Routes ([django.urls.resolvers]) *)

(** A compiled route: literal text and named, typed parameters. *)
Inductive part : Type :=
  | Lit (text : string)
  | Param (name : string) (conv : converter).

(** Where the scanner of a route is: in literal text, or after [<]
    reading [converter:] or the parameter's name. *)
Inductive scan : Type :=
  | InLit (text : string)
  | InAngle (word : string)
  | InName (conv : string) (name : string).

Definition snoc (s : string) (c : ascii) : string := s +:+ String c EmptyString.

Definition is_whitespace (c : ascii) : bool :=
  existsb (Ascii.eqb c) [" "; "009"; "010"; "013"; "011"; "012"]%char.

Definition is_word_char (c : ascii) : bool :=
  cls_match false [("a", "z"); ("A", "Z"); ("0", "9"); ("_", "_")]%char c.

Definition is_identifier (s : string) : bool :=
  match s with
  | EmptyString => false
  | String c _ =>
      negb (cls_match false [("0", "9")]%char c)
      && forallb is_word_char (list_ascii_of_string s)
  end.

Definition close_param (conv name : string) : option part :=
  if is_identifier name then Param name <$> get_converter conv else None.

(** [_route_to_regex]: [<converter:name>] is a parameter, [<name>] a
    parameter with the default converter [str], everything else literal
    text.  Whitespace in the route, an unknown converter or a name that
    is not an identifier raise [ImproperlyConfigured] ([None]); so does,
    in this model, a [<] that is never closed. *)
Fixpoint scan_route (st : scan) (route : string) : option (list part) :=
  match route with
  | EmptyString =>
      match st with
      | InLit text => Some [Lit text]
      | _ => None
      end
  | String c rest =>
      if is_whitespace c then None else
      match st with
      | InLit text =>
          if Ascii.eqb c "<" then cons (Lit text) <$> scan_route (InAngle "") rest
          else scan_route (InLit (snoc text c)) rest
      | InAngle word =>
          if Ascii.eqb c ":" then scan_route (InName word "") rest
          else if Ascii.eqb c ">" then
            p ← close_param "str" word;
            cons p <$> scan_route (InLit "") rest
          else scan_route (InAngle (snoc word c)) rest
      | InName conv name =>
          if Ascii.eqb c ">" then
            p ← close_param conv name;
            cons p <$> scan_route (InLit "") rest
          else scan_route (InName conv (snoc name c)) rest
      end
  end.

Definition route_to_regex (route : string) : option (list part) :=
  scan_route (InLit "") route.

Fixpoint strip_prefix (l s : string) : option string :=
  match l with
  | EmptyString => Some s
  | String a l' =>
      match s with
      | EmptyString => None
      | String b s' => if Ascii.eqb a b then strip_prefix l' s' else None
      end
  end.

(** All ways of cutting a string in two, shortest first part first. *)
Fixpoint splits (s : string) : list (string * string) :=
  (EmptyString, s) ::
  match s with
  | EmptyString => []
  | String c s' => map (fun ps => (String c ps.1, ps.2)) (splits s')
  end.

Fixpoint first_some {A B : Type} (f : A → option B) (l : list A) : option B :=
  match l with
  | [] => None
  | x :: l' =>
      match f x with
      | Some y => Some y
      | None => first_some f l'
      end
  end.

(** The anchor [_route_to_regex] appends to the route of a [path()]
    that has a view.  Django up to the 3.x series writes [$], which in
    Python matches at the end of the string and also just before a
    newline that ends the string; later releases write [\Z], the end of
    the string only.  The sources do not pin the release, so the
    matcher takes the anchor as a parameter. *)
Inductive end_anchor : Type :=
  | Dollar
  | EndOfString.

Definition newline : string := String "010" EmptyString.

Definition at_end (anchor : end_anchor) (s : string) : bool :=
  match s with
  | EmptyString => true
  | String c EmptyString =>
      match anchor with
      | Dollar => Ascii.eqb c "010"
      | EndOfString => false
      end
  | _ => false
  end.

(** Matching a compiled route against a path from its start to the
    anchor.  A parameter takes the longest segment its converter's
    expression matches for which the rest of the route still matches;
    the result is the [groupdict] with each group's converter. *)
Fixpoint match_parts (anchor : end_anchor) (ps : list part) (s : string)
    : option (list (string * converter * string)) :=
  match ps with
  | [] => if at_end anchor s then Some [] else None
  | Lit text :: ps' => strip_prefix text s ≫= match_parts anchor ps'
  | Param name conv :: ps' =>
      first_some
        (fun cut : string * string =>
           if fullmatch (converter_regex conv) cut.1
           then cons (name, conv, cut.1) <$> match_parts anchor ps' cut.2
           else None)
        (rev (splits s))
  end.

(** The paths an anchored route text stands for: the text itself and,
    under [$], the text followed by one newline. *)
Definition reaches_end (anchor : end_anchor) (text p : string) : Prop :=
  p = text ∨ (anchor = Dollar ∧ p = text +:+ newline).

(** The converters are applied to the groups; a [ValueError] makes the
    pattern not match. *)
Fixpoint convert_groups (groups : list (string * converter * string))
    : option (list (string * pyval)) :=
  match groups with
  | [] => Some []
  | (name, conv, raw) :: groups' =>
      v ← to_python conv raw;
      kw ← convert_groups groups';
      Some ((name, v) :: kw)
  end.

Inductive outcome (A : Type) : Type :=
  | Matched (a : A)
  | NoMatch
  | ImproperlyConfigured.
Arguments Matched {A} a.
Arguments NoMatch {A}.
Arguments ImproperlyConfigured {A}.

(** [RoutePattern.match]: the keyword arguments when the path matches. *)
Definition route_match (anchor : end_anchor) (route path : string)
    : outcome (list (string * pyval)) :=
  match route_to_regex route with
  | None => ImproperlyConfigured
  | Some ps =>
      match match_parts anchor ps path ≫= convert_groups with
      | Some kw => Matched kw
      | None => NoMatch
      end
  end.

(** ** [builds/urls.py] *)

Module Builds.

(** The class-based views of [builds/views.py] that the table names. *)
Inductive view : Type :=
  | CreateView
  | DetailView
  | UpdateView
  | DeleteView.

Record URLPattern : Type := path {
  route : string;
  callback : view;
  name : string;
}.

Definition app_name : string := "builds".

Definition urlpatterns : list URLPattern :=
  [ path "new/" CreateView "new";
    path "<uuid:pk>/" DetailView "detail";
    path "<uuid:pk>/edit/" UpdateView "update";
    path "<uuid:pk>/delete/" DeleteView "delete" ].

Record ResolverMatch : Type := {
  func : view;
  kwargs : list (string * pyval);
  url_name : string;
}.

(** [URLResolver.resolve]: the patterns are tried in order and the first
    that matches wins; none matching is [Resolver404] ([NoMatch]). *)
Fixpoint resolve (anchor : end_anchor) (patterns : list URLPattern)
    (p : string) : outcome ResolverMatch :=
  match patterns with
  | [] => NoMatch
  | pat :: patterns' =>
      match route_match anchor (route pat) p with
      | Matched kw =>
          Matched {| func := callback pat; kwargs := kw; url_name := name pat |}
      | NoMatch => resolve anchor patterns' p
      | ImproperlyConfigured => ImproperlyConfigured
      end
  end.

End Builds.

(** ** UUID-shaped path segments

    The canonical text of a UUID: 36 characters, hyphens at positions 8,
    13, 18 and 23, lower-case hexadecimal digits everywhere else (32
    digits, 128 bits). *)

Definition is_hex_lower (c : ascii) : bool :=
  existsb (Ascii.eqb c)
    ["0"; "1"; "2"; "3"; "4"; "5"; "6"; "7"; "8"; "9";
     "a"; "b"; "c"; "d"; "e"; "f"]%char.

Definition is_hyphen_position (i : nat) : bool :=
  existsb (Nat.eqb i) [8; 13; 18; 23].

Fixpoint uuid_chars_from (i : nat) (s : string) : bool :=
  match s with
  | EmptyString => true
  | String c s' =>
      (if is_hyphen_position i then Ascii.eqb c "-" else is_hex_lower c)
      && uuid_chars_from (S i) s'
  end.

Definition uuid_shaped (s : string) : bool :=
  Nat.eqb (String.length s) 36 && uuid_chars_from 0 s.

(** A string against a list of per-position tests of the same length. *)
Fixpoint shape_match (sh : list (ascii → bool)) (s : string) : bool :=
  match sh, s with
  | [], EmptyString => true
  | f :: sh', String c s' => f c && shape_match sh' s'
  | _, _ => false
  end.

(** A regular expression that tests a string position by position. *)
Definition has_shape (r : regex) (sh : list (ascii → bool)) : Prop :=
  ∀ s, fullmatch r s = shape_match sh s.

(** What the canonical text asks of position [i]. *)
Definition uuid_position (i : nat) (c : ascii) : bool :=
  if is_hyphen_position i then Ascii.eqb c "-" else is_hex_lower c.

(** Does a route carry a parameter? *)
Definition has_param (route : string) : bool :=
  match route_to_regex route with
  | Some ps =>
      existsb (fun p => match p with Param _ _ => true | Lit _ => false end) ps
  | None => false
  end.

(** ** The build lifecycle *)

Module Lifecycle.

(** Modelled from the spec: the statuses of section 4.2 (no build model
    is among the sources). *)
Inductive status : Type :=
  | QUEUED
  | RUNNING
  | SUCCEEDED
  | FAILED
  | CANCELLED.

Definition status_eqb (a b : status) : bool :=
  match a, b with
  | QUEUED, QUEUED | RUNNING, RUNNING | SUCCEEDED, SUCCEEDED
  | FAILED, FAILED | CANCELLED, CANCELLED => true
  | _, _ => false
  end.


(** Modelled from the spec: the Build record of section 3 (the build
    model is not among the sources).  Timestamps are left out. *)
Record Build : Type := {
  app : string;
  source : string;
  state : status;
  retries : nat;
  log : list string;
  artifact : option string;
  reason : option string;
}.

(** Modelled from the spec: [create(appRef, sourceRef)] of section 4.1,
    "status=QUEUED", no artifact reference, empty log. *)
Definition create (appRef sourceRef : string) : Build :=
  {| app := appRef; source := sourceRef; state := QUEUED; retries := 0;
     log := []; artifact := None; reason := None |}.

(** Modelled from the spec: what the Lifecycle Controller and the
    Executor of sections 4.2 and 4.3 ask of the store. *)
Inductive mutation : Type :=
  | LeaseAcquired
  | LeaseLost
  | ReportSuccess (artifactRef : string)
  | ReportFailure (kind : string)
  | Cancel
  | AppendLog (line : string).

Definition set_state (b : Build) (s : status) (why : option string) : Build :=
  {| app := app b; source := source b; state := s; retries := retries b;
     log := log b; artifact := artifact b; reason := why |}.

Section Controller.

(** The bound on retries after a lost lease. *)
Variable max_retries : nat.

(** Modelled from the spec: [update(id, mutation)] of section 4.1 under
    the controller of section 4.2 and the executor of section 4.3.
    - a lease is acquired on a QUEUED build, which becomes RUNNING;
    - "on lease loss/timeout the Build returns to QUEUED for retry up
      to a bounded retry count, after which it moves to FAILED with a
      timeout reason";
    - success stores "the artifact reference atomically with the
      SUCCEEDED transition"; a failed step "surfaces FAILED";
    - cancellation takes a QUEUED or a RUNNING build to CANCELLED;
    - the log is appended to while the build runs;
    - anything else "fails with Conflict" ([None]). *)
Definition update (b : Build) (m : mutation) : option Build :=
  match m, state b with
  | LeaseAcquired, QUEUED => Some (set_state b RUNNING None)
  | LeaseLost, RUNNING =>
      if Nat.ltb (retries b) max_retries then
        Some {| app := app b; source := source b; state := QUEUED;
                retries := S (retries b); log := log b;
                artifact := artifact b; reason := None |}
      else Some (set_state b FAILED (Some "Timeout"))
  | ReportSuccess ref, RUNNING =>
      Some {| app := app b; source := source b; state := SUCCEEDED;
              retries := retries b; log := log b;
              artifact := Some ref; reason := None |}
  | ReportFailure kind, RUNNING => Some (set_state b FAILED (Some kind))
  | Cancel, (QUEUED | RUNNING) =>
      Some (set_state b CANCELLED (Some "CancelledByUser"))
  | AppendLog line, RUNNING =>
      Some {| app := app b; source := source b; state := state b;
              retries := retries b; log := log b ++ [line];
              artifact := artifact b; reason := reason b |}
  | _, _ => None
  end.

(** A rejected mutation leaves the record as it was. *)
Definition apply (b : Build) (m : mutation) : Build :=
  default b (update b m).

(** The successive states of the record under a sequence of requested
    mutations, the first being the record itself. *)
Fixpoint history (b : Build) (ms : list mutation) : list Build :=
  b :: match ms with
       | [] => []
       | m :: ms' => history (apply b m) ms'
       end.

(** The statuses a reader of the record sees over time. *)
Definition observed (appRef sourceRef : string) (ms : list mutation)
    : list status :=
  map state (history (create appRef sourceRef) ms).


End Controller.

(** The state machine as section 4.2 lists it. *)
Definition edge (a b : status) : bool :=
  match a, b with
  | QUEUED, RUNNING
  | RUNNING, SUCCEEDED
  | RUNNING, FAILED
  | QUEUED, CANCELLED
  | RUNNING, CANCELLED => true
  | _, _ => false
  end.





(** Every two consecutive statuses are equal (nothing happened to the
    status between two observations) or joined by an edge. *)
Fixpoint is_path (e : status → status → bool) (l : list status) : bool :=
  match l with
  | a :: (b :: _) as l' => (status_eqb a b || e a b) && is_path e l'
  | _ => true
  end.


(** The record never shows one of SUCCEEDED and the artifact reference
    without the other. *)
Definition success_visible_whole (b : Build) : bool :=
  Bool.eqb (status_eqb (state b) SUCCEEDED)
           (match artifact b with Some _ => true | None => false end).

End Lifecycle.

(** ** Slices and suffixes of strings *)

(** [s[:n]] and [s[n:]]. *)
Fixpoint str_take (n : nat) (s : string) : string :=
  match n, s with
  | S n', String c s' => String c (str_take n' s')
  | _, _ => EmptyString
  end.

Fixpoint str_drop (n : nat) (s : string) : string :=
  match n, s with
  | S n', String _ s' => str_drop n' s'
  | _, _ => s
  end.

(** [s.endswith(suffix)] and [s.startswith(prefix)]. *)
Definition endswith (s suffix : string) : bool :=
  Nat.leb (String.length suffix) (String.length s)
  && String.eqb (str_drop (String.length s - String.length suffix) s) suffix.

Definition startswith (s prefix : string) : bool :=
  String.eqb (str_take (String.length prefix) s) prefix.

(** ** Host validation ([django.http.request]) *)

Module Hosts.

(** [str.lower] on the code points below 256: the letters A-Z and the
    Latin-1 capitals (all of U+00C0..U+00DE but the multiplication
    sign) move up by 32, nothing else changes. *)
Definition lower_char (c : ascii) : ascii :=
  let n := N_of_ascii c in
  if ((65 <=? n) && (n <=? 90)
      || (192 <=? n) && (n <=? 222) && negb (n =? 215))%N
  then ascii_of_N (n + 32)
  else c.

Fixpoint lower (s : string) : string :=
  match s with
  | EmptyString => EmptyString
  | String c s' => String (lower_char c) (lower s')
  end.

(** [is_same_domain(host, pattern)]: an empty pattern matches nothing; a
    pattern that begins with a dot matches the domain after the dot and
    every subdomain of it; any other pattern matches itself. *)
Definition is_same_domain (host pattern : string) : bool :=
  match pattern with
  | EmptyString => false
  | _ =>
      let pattern := lower pattern in
      match pattern with
      | String "." rest => endswith host pattern || String.eqb host rest
      | _ => false
      end
      || String.eqb pattern host
  end.

(** [validate_host(host, allowed_hosts)]. *)
Definition validate_host (host : string) (allowed_hosts : list string) : bool :=
  existsb (fun pattern => String.eqb pattern "*" || is_same_domain host pattern)
    allowed_hosts.

(** Truth of a Python value. *)
Definition truthy (v : pyval) : bool :=
  match v with
  | PyNone => false
  | PyStr s => negb (String.eqb s "")
  | PyInt n => negb (Z.eqb n 0)
  | PyBool b => b
  | PyList l => match l with [] => false | _ => true end
  | PyUUID _ => true
  end.

(** The hosts [HttpRequest.get_host] validates against: the setting,
    unless [DEBUG] is on and the setting is empty, when Django puts its
    own list of local hosts in its place. *)
Definition request_allowed_hosts (debug : pyval)
    (allowed_hosts local_hosts : list string) : list string :=
  if truthy debug && match allowed_hosts with [] => true | _ => false end
  then local_hosts
  else allowed_hosts.

(** [host_validation_re], the pattern
    [^([a-z0-9.-]+|\[[a-f0-9]*:[a-f0-9\.:]+\])(:\d+)?$] without its
    anchors: a name or a bracketed IPv6 address, and an optional port.
    (On the code points below 256, [\d] is [[0-9]].) *)
Definition host_validation_re : regex :=
  Seq (Alt (Plus (Cls false [("a", "z"); ("0", "9"); (".", "."); ("-", "-")]%char))
           (Seq (Chr "[")
           (Seq (Star (Cls false [("a", "f"); ("0", "9")]%char))
           (Seq (Chr ":")
           (Seq (Plus (Cls false [("a", "f"); ("0", "9"); (".", ".");
                                  (":", ":")]%char))
                (Chr "]"))))))
      (Alt Eps (Seq (Chr ":") (Plus digit))).

(** [re.match] of [^r$]: [$] is the end of the string, and also the
    place before a newline that ends the string. *)
Definition match_dollar (r : regex) (s : string) : bool :=
  fullmatch r s
  || endswith s newline && fullmatch r (str_take (String.length s - 1) s).

(** [s.rsplit(sep, 1)] when [sep] occurs in [s]: what is before its last
    occurrence and what is after. *)
Fixpoint rsplit1 (sep : ascii) (s : string) : option (string * string) :=
  match s with
  | EmptyString => None
  | String c s' =>
      match rsplit1 sep s' with
      | Some (before, after) => Some (String c before, after)
      | None => if Ascii.eqb c sep then Some (EmptyString, s') else None
      end
  end.

(** [split_domain_port(host)]: the host is lower-cased; a host the
    pattern does not match has the empty domain; a host that ends with
    a bracket is an IPv6 address without a port; otherwise the port is
    what follows the last colon, and one dot that ends the domain is
    dropped. *)
Definition split_domain_port (host : string) : string * string :=
  let host := lower host in
  if negb (match_dollar host_validation_re host) then (EmptyString, EmptyString)
  else if endswith host "]" then (host, EmptyString)
  else
    let bits := default (host, EmptyString) (rsplit1 ":" host) in
    (if endswith bits.1 "."
     then str_take (String.length bits.1 - 1) bits.1
     else bits.1,
     bits.2).

(** [HttpRequest.get_host] on the raw host of a request (the [Host]
    header): is the host accepted ([Some true]) or is it
    [DisallowedHost] ([Some false])?  [None]: the settings do not load.
    Django 3.1, the release the header of the settings module names,
    refuses settings whose [SECRET_KEY] is empty
    ([ImproperlyConfigured]). *)
Definition host_allowed (environ : Environ) (local_hosts : list string)
    (host : string) : option bool :=
  if truthy (Settings.SECRET_KEY environ) then
    allowed_hosts ← Settings.ALLOWED_HOSTS environ;
    let domain := (split_domain_port host).1 in
    Some (negb (String.eqb domain "")
          && validate_host domain
               (request_allowed_hosts (Settings.DEBUG environ)
                  allowed_hosts local_hosts))
  else None.

End Hosts.

(** ** Directories of the project ([pathlib], [os.path]) *)

Module Layout.

(** An absolute POSIX path without [.] and [..], as [Path.resolve]
    returns it, is the list of its components below the root. *)

(** [p.parent]; the root is its own parent. *)
Definition parent (p : list string) : list string := removelast p.

(** [str(p)], [os.fspath(p)]. *)
Definition fspath (p : list string) : string :=
  match p with
  | [] => "/"
  | _ => fold_right (fun c rest => "/" +:+ c +:+ rest) "" p
  end.

(** The components pathlib reads from a string: the fields between
    slashes that are neither empty nor [.]. *)
Definition parse_parts (s : string) : list string :=
  List.filter (fun c => negb (String.eqb c "") && negb (String.eqb c "."))
    (split "/" s).

(** [p / s] for an absolute [p].  A relative [s] is appended, an
    absolute [s] replaces [p].  A string that begins with exactly two
    slashes has the root [//] in POSIX pathlib, which this model of the
    root [/] leaves out ([None]). *)
Definition truediv (p : list string) (s : string) : option (list string) :=
  if startswith s "//" && negb (startswith s "///") then None
  else if startswith s "/" then Some (parse_parts s)
  else Some (p ++ parse_parts s)%list.

(** [posixpath.join(a, b)]. *)
Definition os_path_join (a b : string) : string :=
  if startswith b "/" then b
  else if String.eqb a "" || endswith a "/" then a +:+ b
  else a +:+ "/" +:+ b.

(** [BASE_DIR = Path(__file__).resolve().parent.parent.parent], as a
    function of [file], the resolved path of the settings module. *)
Definition BASE_DIR (file : list string) : list string :=
  parent (parent (parent file)).

(** ['DIRS': [BASE_DIR / 'templates']] of [TEMPLATES]. *)
Definition TEMPLATES_DIRS (file : list string) : option (list (list string)) :=
  d ← truediv (BASE_DIR file) "templates"; Some [d].

(** [MEDIA_ROOT = os.path.join(BASE_DIR, 'uploads')], a [str]. *)
Definition MEDIA_ROOT (file : list string) : string :=
  os_path_join (fspath (BASE_DIR file)) "uploads".

(** The components of a resolved path: not empty, not [.], without a
    slash. *)
Definition component (c : string) : bool :=
  negb (String.eqb c "") && negb (String.eqb c ".")
  && Nat.eqb (count_char "/" c) 0.

End Layout.

(** ** The text of a UUID and reversing a route *)

(** The digit [x] formats a value below 16 as. *)
Definition hex_char (d : Z) : ascii :=
  if (d <? 10)%Z then ascii_of_N (Z.to_N (48 + d))
  else ascii_of_N (Z.to_N (87 + d)).

(** The [k] lowest hexadecimal digits of [n], most significant first;
    for [n] below [16^k] this is ['%0kx' % n]. *)
Fixpoint hex_digits (k : nat) (n : Z) : string :=
  match k with
  | O => EmptyString
  | S k' => hex_digits k' (n / 16) +:+ String (hex_char (n mod 16)) EmptyString
  end.

(** The 32 digits cut 8-4-4-4-12:
    [hex[:8]-hex[8:12]-hex[12:16]-hex[16:20]-hex[20:]]. *)
Definition hyphenate (hex : string) : string :=
  str_take 8 hex +:+ "-" +:+
  str_take 4 (str_drop 8 hex) +:+ "-" +:+
  str_take 4 (str_drop 12 hex) +:+ "-" +:+
  str_take 4 (str_drop 16 hex) +:+ "-" +:+
  str_drop 20 hex.

(** [str(uuid.UUID(int=n))]: the digits of ['%032x' % n] with their
    hyphens.  The constructor raises [ValueError] ([None]) unless
    [0 <= n < 1 << 128]. *)
Definition uuid_str (n : Z) : option string :=
  if ((0 <=? n) && (n <? 2 ^ 128))%Z
  then Some (hyphenate (hex_digits 32 n))
  else None.

(** [str(v)] for the values a build route is reversed with, a [str] or
    a [uuid.UUID].  The text of the other values is not modelled
    ([None], which makes a candidate of [reverse] fail); none of them
    has the shape of a UUID, so no build route would accept it. *)
Definition py_str (v : pyval) : option string :=
  match v with
  | PyStr s => Some s
  | PyUUID n => uuid_str n
  | _ => None
  end.

(** [converter.to_url(value)]: [str(value)] for every converter. *)
Definition to_url (c : converter) (v : pyval) : option string := py_str v.

(** [urllib.parse.quote(s, safe)]: letters, digits, [_.-~] and the
    characters of [safe] stay, every other character becomes [%XX] for
    each byte of its UTF-8 encoding. *)
Definition always_safe (c : ascii) : bool :=
  cls_match false
    [("A", "Z"); ("a", "z"); ("0", "9"); ("_", "_"); (".", ".");
     ("-", "-"); ("~", "~")]%char c.

Definition upper_hex_char (d : N) : ascii :=
  if (d <? 10)%N then ascii_of_N (48 + d) else ascii_of_N (55 + d).

Definition percent (byte : N) : string :=
  String "%" (String (upper_hex_char (byte / 16))
    (String (upper_hex_char (byte mod 16)) EmptyString)).

Definition utf8 (c : ascii) : list N :=
  let n := N_of_ascii c in
  if (n <? 128)%N then [n] else [192 + n / 64; 128 + n mod 64]%N.

Fixpoint quote (safe : string) (s : string) : string :=
  match s with
  | EmptyString => EmptyString
  | String c s' =>
      (if always_safe c || existsb (Ascii.eqb c) (list_ascii_of_string safe)
       then String c EmptyString
       else fold_right (fun b rest => percent b +:+ rest) "" (utf8 c))
      +:+ quote safe s'
  end.

(** The characters [reverse] leaves unquoted: [RFC3986_SUBDELIMS] and
    [/~:@]. *)
Definition reverse_safe : string := "!$&'()*+,;=/~:@".

(** [escape_leading_slashes(url)]. *)
Definition escape_leading_slashes (url : string) : string :=
  if startswith url "//" then "/%2F" +:+ str_drop 2 url else url.

Fixpoint kwargs_get (k : string) (kw : list (string * pyval)) : option pyval :=
  match kw with
  | [] => None
  | (k', v) :: kw' => if String.eqb k k' then Some v else kwargs_get k kw'
  end.

Definition param_names (ps : list part) : list string :=
  omap (fun p => match p with Param nm _ => Some nm | Lit _ => None end) ps.

(** [set(kwargs) == set(params)]. *)
Definition same_keys (kw : list (string * pyval)) (params : list string) : bool :=
  forallb (fun k => existsb (String.eqb k) params) (map fst kw)
  && forallb (fun nm => existsb (String.eqb nm) (map fst kw)) params.

(** The text of a route with its parameters filled in. *)
Fixpoint substitute (ps : list part) (kw : list (string * pyval))
    : option string :=
  match ps with
  | [] => Some EmptyString
  | Lit text :: ps' => rest ← substitute ps' kw; Some (text +:+ rest)
  | Param nm conv :: ps' =>
      v ← kwargs_get nm kw;
      text ← to_url conv v;
      rest ← substitute ps' kw;
      Some (text +:+ rest)
  end.

(** One candidate of [URLResolver._reverse_with_prefix]: the keyword
    arguments must be the route's parameters, the filled-in text must
    match the route again, and the URL is the quoted text behind the
    prefix the table is included under.  [None]: not this candidate. *)
Definition reverse_pattern (anchor : end_anchor) (prefix : string)
    (pat : Builds.URLPattern) (kw : list (string * pyval)) : option string :=
  ps ← route_to_regex (Builds.route pat);
  if same_keys kw (param_names ps) then
    body ← substitute ps kw;
    _ ← match_parts anchor ps body;
    Some (escape_leading_slashes (quote reverse_safe (prefix +:+ body)))
  else None.

(** [URLResolver._reverse_with_prefix(name, prefix, **kw)], a call with
    keyword arguments only, for the resolver of a table, which
    [reverse('builds:' + name, kwargs=kw)] calls with the prefix the
    table is included under: the patterns of that name are tried, the
    last of the table first; [None] is [NoReverseMatch].
    [reverse_with_prefix] below is the call with positional arguments
    too. *)
Definition reverse (anchor : end_anchor) (prefix : string)
    (patterns : list Builds.URLPattern) (name : string)
    (kw : list (string * pyval)) : option string :=
  first_some (fun pat => reverse_pattern anchor prefix pat kw)
    (List.filter (fun pat => String.eqb (Builds.name pat) name)
       (rev patterns)).

(** What a call of [reverse] comes to: a URL or one of its two
    exceptions. *)
Inductive reversed : Type :=
  | Url (url : string)
  | NoReverseMatch
  | ValueError.

(** The arguments a candidate is filled in with.  Positional arguments,
    when there are any, must be as many as the route has parameters and
    are paired with them in order ([dict(zip(params, args))]);
    otherwise the keyword arguments must be the route's parameters. *)
Definition candidate_subs (params : list string) (args : list pyval)
    (kw : list (string * pyval)) : option (list (string * pyval)) :=
  match args with
  | [] => if same_keys kw params then Some kw else None
  | _ :: _ =>
      if Nat.eqb (List.length args) (List.length params)
      then Some (combine params args)
      else None
  end.

Definition reverse_candidate (anchor : end_anchor) (prefix : string)
    (pat : Builds.URLPattern) (args : list pyval)
    (kw : list (string * pyval)) : option string :=
  ps ← route_to_regex (Builds.route pat);
  subs ← candidate_subs (param_names ps) args kw;
  body ← substitute ps subs;
  _ ← match_parts anchor ps body;
  Some (escape_leading_slashes (quote reverse_safe (prefix +:+ body))).

(** [URLResolver._reverse_with_prefix(name, prefix, *args, **kw)]:
    positional and keyword arguments together raise [ValueError]; no
    candidate is [NoReverseMatch]. *)
Definition reverse_with_prefix (anchor : end_anchor) (prefix : string)
    (patterns : list Builds.URLPattern) (name : string)
    (args : list pyval) (kw : list (string * pyval)) : reversed :=
  match args, kw with
  | _ :: _, _ :: _ => ValueError
  | _, _ =>
      match first_some
              (fun pat => reverse_candidate anchor prefix pat args kw)
              (List.filter (fun pat => String.eqb (Builds.name pat) name)
                 (rev patterns)) with
      | Some url => Url url
      | None => NoReverseMatch
      end
  end.

(** * Proofs *)

(** ** Facts about [os.environ.get] and [str.split] *)

Lemma environ_get_sourced environ var d :
  sourced_from environ var d (environ_get environ var d).
Proof.
  unfold sourced_from, environ_get.
  destruct (environ !! var) as [v|]; split; intros; congruence.
Qed.

Lemma split_nonempty sep s : split sep s ≠ [].
Proof.
  destruct s as [|c s]; simpl; [discriminate|].
  destruct (Ascii.eqb c sep); [discriminate|].
  destruct (split sep s); discriminate.
Qed.

Lemma split_length sep s : List.length (split sep s) = S (count_char sep s).
Proof.
  induction s as [|c s IH]; simpl; [reflexivity|].
  destruct (Ascii.eqb c sep); simpl.
  - now rewrite IH.
  - destruct (split sep s) as [|w ws]; simpl in *; [discriminate|assumption].
Qed.

Lemma join_split sep s : join sep (split sep s) = s.
Proof.
  induction s as [|c s IH]; simpl; [reflexivity|].
  destruct (Ascii.eqb_spec c sep) as [->|Hne].
  - pose proof (split_nonempty sep s) as Hn.
    destruct (split sep s) as [|w ws]; [contradiction|].
    simpl. simpl in IH. now rewrite IH.
  - pose proof (split_nonempty sep s) as Hn.
    destruct (split sep s) as [|w ws]; [contradiction|].
    destruct ws as [|w' ws]; simpl in *; now rewrite <- IH.
Qed.

Lemma split_no_sep sep s :
  Forall (fun w => count_char sep w = 0) (split sep s).
Proof.
  induction s as [|c s IH]; simpl.
  - constructor; [reflexivity|constructor].
  - destruct (Ascii.eqb c sep) eqn:E.
    + constructor; [reflexivity|assumption].
    + destruct (split sep s) as [|w ws].
      * constructor; [simpl; now rewrite E|constructor].
      * inversion IH; subst. constructor; [simpl; now rewrite E|assumption].
Qed.

Lemma str_app_nil_l (s : string) : "" +:+ s = s.
Proof. reflexivity. Qed.

Lemma str_app_cons (c : ascii) (a b : string) :
  String c a +:+ b = String c (a +:+ b).
Proof. reflexivity. Qed.

Lemma split_without_sep sep w : count_char sep w = 0 → split sep w = [w].
Proof.
  induction w as [|c w IH]; simpl; [reflexivity|].
  destruct (Ascii.eqb c sep); [discriminate|]. intros H.
  by rewrite (IH H).
Qed.

Lemma split_app_sep sep w rest :
  count_char sep w = 0 →
  split sep (w +:+ String sep rest) = w :: split sep rest.
Proof.
  induction w as [|c w IH]; intros H.
  - rewrite str_app_nil_l. simpl. by rewrite Ascii.eqb_refl.
  - rewrite str_app_cons. simpl in *.
    destruct (Ascii.eqb c sep); [discriminate|]. by rewrite (IH H).
Qed.

Lemma split_join sep l :
  l ≠ [] → Forall (fun w => count_char sep w = 0) l →
  split sep (join sep l) = l.
Proof.
  intros Hne H. induction H as [|w l Hw H IH]; [contradiction|].
  destruct l as [|w' l].
  - simpl. by apply split_without_sep.
  - change (join sep (w :: w' :: l))
      with (w +:+ String sep (join sep (w' :: l))).
    rewrite split_app_sep by assumption. f_equal. by apply IH.
Qed.

(** [join] is [sep.join], which the Standard Library calls [concat]. *)
Lemma join_concat sep l : join sep l = String.concat (String sep "") l.
Proof.
  induction l as [|w [|w' l] IH]; [reflexivity..|].
  change (join sep (w :: w' :: l)) with (w +:+ String sep (join sep (w' :: l))).
  by rewrite IH.
Qed.

Lemma count_char_In c s :
  count_char c s = 0 ↔ ¬ In c (list_ascii_of_string s).
Proof.
  induction s as [|d s IH]; simpl; [tauto|].
  destruct (Ascii.eqb_spec d c) as [->|Hne]; simpl.
  - split; [discriminate|]. intros H. destruct H. by left.
  - rewrite IH. split; [intros H [?|?]; tauto|tauto].
Qed.

Lemma comma_free_count sep (l : list string) :
  Forall (fun w => ¬ In sep (list_ascii_of_string w)) l ↔
  Forall (fun w => count_char sep w = 0) l.
Proof. split; apply List.Forall_impl; intros w; by rewrite count_char_In. Qed.

(** ** The production settings *)

Section SettingsFacts.
Import Settings.
Variable environ : Environ.

Lemma database_setting_lookup k v :
  database_setting environ k = Some v ↔
  (<[ "ENGINE" := PyStr "django.db.backends.postgresql" ]>
  (<[ "NAME" := environ_get environ "PEGASUS_DATABASE_NAME" (PyStr "hippo") ]>
  (<[ "USER" := environ_get environ "PEGASUS_DATABASE_USER" (PyStr "postgres") ]>
  (<[ "PASSWORD" := environ_get environ "PEGASUS_DATABASE_PASSWORD" (PyStr "") ]>
  (<[ "HOST" := environ_get environ "PEGASUS_DATABASE_SERVICE_HOST" (PyStr "") ]>
  (<[ "PORT" := environ_get environ "PEGASUS_DATABASE_SERVICE_PORT" (PyInt 5432) ]>
   (∅ : gmap string pyval))))))) !! k = Some v.
Proof.
  unfold database_setting, DATABASES.
  rewrite lookup_singleton_eq. reflexivity.
Qed.

Lemma database_NAME :
  database_setting environ "NAME"
  = Some (environ_get environ "PEGASUS_DATABASE_NAME" (PyStr "hippo")).
Proof. apply database_setting_lookup. by simplify_map_eq. Qed.

Lemma database_USER :
  database_setting environ "USER"
  = Some (environ_get environ "PEGASUS_DATABASE_USER" (PyStr "postgres")).
Proof. apply database_setting_lookup. by simplify_map_eq. Qed.

Lemma database_PASSWORD :
  database_setting environ "PASSWORD"
  = Some (environ_get environ "PEGASUS_DATABASE_PASSWORD" (PyStr "")).
Proof. apply database_setting_lookup. by simplify_map_eq. Qed.

Lemma database_HOST :
  database_setting environ "HOST"
  = Some (environ_get environ "PEGASUS_DATABASE_SERVICE_HOST" (PyStr "")).
Proof. apply database_setting_lookup. by simplify_map_eq. Qed.

Lemma database_PORT :
  database_setting environ "PORT"
  = Some (environ_get environ "PEGASUS_DATABASE_SERVICE_PORT" (PyInt 5432)).
Proof. apply database_setting_lookup. by simplify_map_eq. Qed.

Lemma allowed_hosts_split :
  ALLOWED_HOSTS environ
  = Some (split ","
            (default ".testhost,127.0.0.1,[::1]"
               (environ !! "PEGASUS_ALLOWED_HOSTS"))).
Proof.
  unfold ALLOWED_HOSTS, environ_get.
  by destruct (environ !! "PEGASUS_ALLOWED_HOSTS").
Qed.

End SettingsFacts.

(** C3.  For every environment, each persisted-configuration setting is
    the value of its environment variable when that variable is set and
    its default otherwise: database name ['hippo'], user ['postgres'],
    password [''], host [''], port [5432], registration mode ['enabled']
    and default domain ['hippo.test']. *)
Theorem persisted_configuration_sourced_from_environment
    (environ : Environ) :
  (∃ v, Settings.database_setting environ "NAME" = Some v ∧
        sourced_from environ "PEGASUS_DATABASE_NAME" (PyStr "hippo") v) ∧
  (∃ v, Settings.database_setting environ "USER" = Some v ∧
        sourced_from environ "PEGASUS_DATABASE_USER" (PyStr "postgres") v) ∧
  (∃ v, Settings.database_setting environ "PASSWORD" = Some v ∧
        sourced_from environ "PEGASUS_DATABASE_PASSWORD" (PyStr "") v) ∧
  (∃ v, Settings.database_setting environ "HOST" = Some v ∧
        sourced_from environ "PEGASUS_DATABASE_SERVICE_HOST" (PyStr "") v) ∧
  (∃ v, Settings.database_setting environ "PORT" = Some v ∧
        sourced_from environ "PEGASUS_DATABASE_SERVICE_PORT" (PyInt 5432) v) ∧
  sourced_from environ "PEGASUS_REGISTRATION_MODE" (PyStr "enabled")
    (Settings.REGISTRATION_MODE environ) ∧
  sourced_from environ "PEGASUS_DEFAULT_DOMAIN" (PyStr "hippo.test")
    (Settings.DEFAULT_DOMAIN environ).
Proof.
  repeat split;
    try (eexists; split;
         [ first [ apply database_NAME | apply database_USER
                 | apply database_PASSWORD | apply database_HOST
                 | apply database_PORT ]
         | apply environ_get_sourced ]);
    apply environ_get_sourced.
Qed.

(** C8.  [DEBUG] is the constant [True]: it is the same under every
    environment, and under none is it [False]. *)
Theorem debug_is_constant_true (environ : Environ) :
  Settings.DEBUG environ = PyBool true ∧
  Settings.DEBUG environ ≠ PyBool false ∧
  (∀ environ' : gmap string string,
     Settings.DEBUG environ' = Settings.DEBUG environ).
Proof. split; [reflexivity|]. split; [discriminate|reflexivity]. Qed.

(** C9.  [ALLOWED_HOSTS] is the comma-split of [PEGASUS_ALLOWED_HOSTS]
    (of the default text when the variable is unset): its entries,
    joined by commas, are that text, none of them contains a comma, and
    it is the only non-empty list of which both are true.  It is never
    the empty list: unset, it is [['.testhost', '127.0.0.1', '[::1]']];
    set to the empty string, it is [['']]. *)
Theorem allowed_hosts_is_nonempty_split (environ : Environ) :
  ∃ hosts,
    Settings.ALLOWED_HOSTS environ = Some hosts ∧
    hosts = split ","
              (default ".testhost,127.0.0.1,[::1]"
                 (environ !! "PEGASUS_ALLOWED_HOSTS")) ∧
    String.concat "," hosts
    = default ".testhost,127.0.0.1,[::1]"
        (environ !! "PEGASUS_ALLOWED_HOSTS") ∧
    Forall (fun h => ¬ In ","%char (list_ascii_of_string h)) hosts ∧
    (∀ l : list string,
       l ≠ [] →
       Forall (fun h => ¬ In ","%char (list_ascii_of_string h)) l →
       String.concat "," l
       = default ".testhost,127.0.0.1,[::1]"
           (environ !! "PEGASUS_ALLOWED_HOSTS") →
       l = hosts) ∧
    hosts ≠ [] ∧
    (environ !! "PEGASUS_ALLOWED_HOSTS" = None →
     hosts = [".testhost"; "127.0.0.1"; "[::1]"]) ∧
    (environ !! "PEGASUS_ALLOWED_HOSTS" = Some "" → hosts = [""]).
Proof.
  eexists. split; [apply allowed_hosts_split|].
  split; [reflexivity|].
  split; [by rewrite <- (join_concat ","), join_split|].
  split; [apply comma_free_count, split_no_sep|].
  split.
  { intros l Hne Hfree <-. rewrite <- (join_concat ",").
    symmetry. apply split_join; [exact Hne|]. by apply comma_free_count. }
  split; [apply split_nonempty|].
  split; intros ->; reflexivity.
Qed.

(** C10.  [SECRET_KEY] is the value of [PEGASUS_SECRET_KEY] when it is
    set and [None] when it is unset; of the settings read from the
    environment it is the only one that is [None] when its variable is
    unset, every other one has a default. *)
Theorem secret_key_alone_has_no_default (environ : Environ) :
  sourced_from environ "PEGASUS_SECRET_KEY" PyNone
    (Settings.SECRET_KEY environ) ∧
  (∀ s : Settings.env_setting,
     (∀ env : gmap string string,
        env !! Settings.env_var s = None →
        Settings.setting_value env s = Some PyNone)
     ↔ s = Settings.S_SECRET_KEY) ∧
  (∀ s : Settings.env_setting, In s Settings.env_settings).
Proof.
  split; [apply environ_get_sourced|]. split.
  - intros s. split.
    + intros H. specialize (H ∅ (lookup_empty _)).
      destruct s; [reflexivity| vm_compute in H; discriminate ..].
    + intros -> env Hunset. simpl in *.
      unfold Settings.SECRET_KEY, environ_get. by rewrite Hunset.
  - intros []; vm_compute; tauto.
Qed.

(** ** The build lifecycle *)

Section LifecycleFacts.
Import Lifecycle.
Variable max_retries : nat.

Lemma history_head b ms :
  history max_retries b ms
  = b :: match ms with
         | [] => []
         | m :: ms' => history max_retries (apply max_retries b m) ms'
         end.
Proof. by destruct ms. Qed.







(** One mutation keeps SUCCEEDED and the artifact reference together. *)
Lemma apply_success_whole b m :
  success_visible_whole b = true →
  success_visible_whole (apply max_retries b m) = true.
Proof.
  unfold success_visible_whole, apply, update.
  destruct m, (state b) eqn:E, (artifact b) eqn:A; simpl;
    rewrite ?E, ?A; simpl; try congruence;
    destruct (Nat.ltb (retries b) max_retries); simpl; rewrite ?A;
    congruence.
Qed.

Lemma history_success_whole b ms :
  success_visible_whole b = true →
  forallb success_visible_whole (history max_retries b ms) = true.
Proof.
  revert b. induction ms as [|m ms IH]; intros b H; simpl.
  - by rewrite H.
  - rewrite H. simpl. apply IH. by apply apply_success_whole.
Qed.






End LifecycleFacts.

(** Without retries the controller walks the machine exactly as it is
    listed. *)
Lemma history_is_listed_path_without_retry b ms :
  Lifecycle.is_path Lifecycle.edge
    (map Lifecycle.state (Lifecycle.history 0 b ms)) = true.
Proof.
  revert b. induction ms as [|m ms IH]; intros b; [reflexivity|].
  rewrite history_head, (history_head 0 (Lifecycle.apply 0 b m)).
  specialize (IH (Lifecycle.apply 0 b m)). rewrite history_head in IH.
  cbn [map Lifecycle.is_path] in *. rewrite IH, andb_true_r.
  unfold Lifecycle.apply, Lifecycle.update.
  destruct m, (Lifecycle.state b) eqn:E; simpl; rewrite ?E; reflexivity.
Qed.


(** The retry is observed under every retry bound but zero. *)
Lemma retry_observed_under_positive_bound (k : nat) (appRef sourceRef : string) :
  Lifecycle.observed (S k) appRef sourceRef
    [Lifecycle.LeaseAcquired; Lifecycle.LeaseLost]
  = [Lifecycle.QUEUED; Lifecycle.RUNNING; Lifecycle.QUEUED].
Proof. reflexivity. Qed.


(** C6.  Every state of a build record, whatever mutations are
    requested, shows SUCCEEDED exactly when it shows an artifact
    reference; the executor's report of success is one accepted update
    that sets both. *)
Theorem success_and_artifact_visible_together
    (max_retries : nat) (appRef sourceRef : string)
    (ms : list Lifecycle.mutation) :
  forallb Lifecycle.success_visible_whole
    (Lifecycle.history max_retries (Lifecycle.create appRef sourceRef) ms)
  = true ∧
  (∀ (b : Lifecycle.Build) (ref : string),
     Lifecycle.state b = Lifecycle.RUNNING →
     ∃ b', Lifecycle.update max_retries b (Lifecycle.ReportSuccess ref)
           = Some b' ∧
           Lifecycle.state b' = Lifecycle.SUCCEEDED ∧
           Lifecycle.artifact b' = Some ref) ∧
  (∀ (b b' : Lifecycle.Build) (m : Lifecycle.mutation),
     Lifecycle.update max_retries b m = Some b' →
     Lifecycle.state b' = Lifecycle.SUCCEEDED →
     ∃ ref, m = Lifecycle.ReportSuccess ref ∧
            Lifecycle.artifact b' = Some ref).
Proof.
  split; [by apply history_success_whole|]. split.
  - intros b ref E. unfold Lifecycle.update. rewrite E. eauto.
  - intros b b' m. unfold Lifecycle.update.
    destruct m, (Lifecycle.state b); try discriminate;
      try destruct (Nat.ltb _ _); intros [= <-]; simpl;
      try discriminate; eauto.
Qed.

(** ** Strings *)

Lemma str_app_nil_r (s : string) : s +:+ "" = s.
Proof.
  induction s as [|c s IH]; [reflexivity|].
  by rewrite str_app_cons, IH.
Qed.

Lemma str_app_assoc (a b c : string) : (a +:+ b) +:+ c = a +:+ (b +:+ c).
Proof.
  induction a as [|x a IH]; [reflexivity|].
  by rewrite !str_app_cons, IH.
Qed.

Lemma str_app_length (a b : string) :
  String.length (a +:+ b) = String.length a + String.length b.
Proof.
  induction a as [|x a IH]; [reflexivity|].
  rewrite str_app_cons. simpl. by rewrite IH.
Qed.

Lemma str_app_nil_inv (a b : string) : a +:+ b = "" → a = "" ∧ b = "".
Proof.
  destruct a; [rewrite str_app_nil_l; tauto|].
  rewrite str_app_cons. discriminate.
Qed.

(** Two cuts of one string whose first parts are equally long agree. *)
Lemma str_app_inj_length (a b a' b' : string) :
  a +:+ b = a' +:+ b' → String.length a = String.length a' →
  a = a' ∧ b = b'.
Proof.
  revert a'. induction a as [|x a IH]; intros [|x' a'];
    rewrite ?str_app_cons, ?str_app_nil_l; simpl;
    try discriminate; [tauto|].
  intros [= -> E] [= L]. destruct (IH _ E L) as [-> ->]. tauto.
Qed.

(** ** Matching by derivatives is membership in the language *)

Lemma Matches_Void_inv s : ¬ Matches Void s.
Proof. inversion 1. Qed.

Lemma Matches_Eps_inv s : Matches Eps s → s = "".
Proof. by inversion 1. Qed.

Lemma Matches_Cls_inv neg ranges s :
  Matches (Cls neg ranges) s →
  ∃ c, s = String c "" ∧ cls_match neg ranges c = true.
Proof. inversion 1; subst; eauto. Qed.

Lemma Matches_Seq_inv r1 r2 s :
  Matches (Seq r1 r2) s →
  ∃ s1 s2, s = s1 +:+ s2 ∧ Matches r1 s1 ∧ Matches r2 s2.
Proof. inversion 1; subst; eauto. Qed.

Lemma Matches_Alt_inv r1 r2 s :
  Matches (Alt r1 r2) s → Matches r1 s ∨ Matches r2 s.
Proof. inversion 1; subst; eauto. Qed.

Lemma Matches_Seq_cons c r1 r2 s1 s2 :
  Matches r1 (String c s1) → Matches r2 s2 →
  Matches (Seq r1 r2) (String c (s1 +:+ s2)).
Proof. intros H1 H2. rewrite <- str_app_cons. by constructor. Qed.

Lemma Matches_Seq_nil r1 r2 s :
  Matches r1 "" → Matches r2 s → Matches (Seq r1 r2) s.
Proof.
  intros H1 H2. rewrite <- (str_app_nil_l s). by constructor.
Qed.

Lemma nullable_Matches r : nullable r = true ↔ Matches r "".
Proof.
  split.
  - induction r; simpl; intros H; try discriminate.
    + constructor.
    + apply andb_prop in H as [H1 H2]. apply Matches_Seq_nil; auto.
    + apply orb_prop in H as [H|H]; [apply M_AltL|apply M_AltR]; auto.
    + constructor.
  - intros H. remember "" as s eqn:E.
    induction H; simpl; try discriminate; try reflexivity.
    + apply str_app_nil_inv in E as [-> ->].
      by rewrite IHMatches1, IHMatches2.
    + by rewrite IHMatches.
    + rewrite IHMatches by assumption. apply orb_true_r.
Qed.

Lemma deriv_sound c r s : Matches (deriv c r) s → Matches r (String c s).
Proof.
  revert s. induction r as [| |neg ranges|r1 IH1 r2 IH2|r1 IH1 r2 IH2|r IH];
    simpl; intros s H.
  - by apply Matches_Void_inv in H.
  - by apply Matches_Void_inv in H.
  - destruct (cls_match neg ranges c) eqn:E.
    + apply Matches_Eps_inv in H as ->. by constructor.
    + by apply Matches_Void_inv in H.
  - assert (Hseq : Matches (Seq (deriv c r1) r2) s →
                   Matches (Seq r1 r2) (String c s)).
    { intros (s1 & s2 & -> & H1 & H2)%Matches_Seq_inv.
      apply Matches_Seq_cons; auto. }
    destruct (nullable r1) eqn:N; [|auto].
    apply Matches_Alt_inv in H as [H|H]; [auto|].
    apply Matches_Seq_nil; [by apply nullable_Matches | auto].
  - apply Matches_Alt_inv in H as [H|H];
      [apply M_AltL|apply M_AltR]; auto.
  - apply Matches_Seq_inv in H as (s1 & s2 & -> & H1 & H2).
    rewrite <- str_app_cons. constructor; auto.
Qed.

Lemma deriv_complete c r s : Matches r (String c s) → Matches (deriv c r) s.
Proof.
  intros H. remember (String c s) as t eqn:E. revert s E.
  induction H as [|neg ranges c0 Hc|r1 r2 s1 s2 H1 IH1 H2 IH2
                  |r1 r2 t H IH|r1 r2 t H IH| |r s1 s2 H1 IH1 H2 IH2];
    intros s E; simpl.
  - discriminate.
  - injection E as -> <-. rewrite Hc. constructor.
  - destruct s1 as [|c1 s1'].
    + rewrite str_app_nil_l in E.
      apply nullable_Matches in H1. rewrite H1. apply M_AltR. auto.
    + rewrite str_app_cons in E. injection E as -> <-.
      assert (Matches (Seq (deriv c r1) r2) (s1' +:+ s2))
        by (constructor; auto).
      destruct (nullable r1); [by apply M_AltL|assumption].
  - apply M_AltL. auto.
  - apply M_AltR. auto.
  - discriminate.
  - destruct s1 as [|c1 s1'].
    + rewrite str_app_nil_l in E. exact (IH2 _ E).
    + rewrite str_app_cons in E. injection E as -> <-.
      constructor; auto.
Qed.

Theorem fullmatch_Matches r s : fullmatch r s = true ↔ Matches r s.
Proof.
  revert r. induction s as [|c s IH]; intros r; simpl.
  - apply nullable_Matches.
  - rewrite IH. split; [apply deriv_sound|apply deriv_complete].
Qed.

(** ** The UUID converter accepts the canonical text and nothing else *)

Lemma bool_eq_iff (a b : bool) : (a = true ↔ b = true) → a = b.
Proof. destruct a, b; intros [H1 H2]; auto; symmetry; auto. Qed.

Lemma fullmatch_Seq_Eps r s : fullmatch (Seq Eps r) s = fullmatch r s.
Proof.
  apply bool_eq_iff. rewrite !fullmatch_Matches. split.
  - intros (s1 & s2 & -> & ->%Matches_Eps_inv & H)%Matches_Seq_inv.
    by rewrite str_app_nil_l.
  - intros H. apply Matches_Seq_nil; [constructor|assumption].
Qed.

Lemma fullmatch_Seq_Void r s : fullmatch (Seq Void r) s = false.
Proof.
  destruct (fullmatch (Seq Void r) s) eqn:E; [|reflexivity].
  apply fullmatch_Matches, Matches_Seq_inv in E as (s1 & s2 & _ & H & _).
  by apply Matches_Void_inv in H.
Qed.

Lemma fullmatch_Seq_assoc a b c s :
  fullmatch (Seq (Seq a b) c) s = fullmatch (Seq a (Seq b c)) s.
Proof.
  apply bool_eq_iff. rewrite !fullmatch_Matches. split.
  - intros (s12 & s3 & -> & (s1 & s2 & -> & H1 & H2)%Matches_Seq_inv & H3)
      %Matches_Seq_inv.
    rewrite str_app_assoc. constructor; [|constructor]; assumption.
  - intros (s1 & s23 & -> & H1 & (s2 & s3 & -> & H2 & H3)%Matches_Seq_inv)
      %Matches_Seq_inv.
    rewrite <- str_app_assoc. constructor; [constructor|]; assumption.
Qed.

Lemma fullmatch_Seq_Cls neg ranges r c s :
  fullmatch (Seq (Cls neg ranges) r) (String c s)
  = cls_match neg ranges c && fullmatch r s.
Proof.
  simpl. destruct (cls_match neg ranges c); simpl.
  - apply fullmatch_Seq_Eps.
  - apply fullmatch_Seq_Void.
Qed.

Lemma has_shape_Eps : has_shape Eps [].
Proof. intros [|c s]; [reflexivity|]. simpl. by induction s. Qed.

Lemma has_shape_Cls neg ranges r sh :
  has_shape r sh →
  has_shape (Seq (Cls neg ranges) r) (cls_match neg ranges :: sh).
Proof.
  intros H [|c s]; [reflexivity|].
  rewrite fullmatch_Seq_Cls. simpl. by rewrite H.
Qed.

Lemma has_shape_Rep n neg ranges r sh :
  has_shape r sh →
  has_shape (Seq (Rep n (Cls neg ranges)) r)
            (replicate n (cls_match neg ranges) ++ sh)%list.
Proof.
  intros H. induction n as [|n IH]; intros s; simpl.
  - rewrite <- H. apply (fullmatch_Seq_Eps r s).
  - change (fullmatch (Seq (Seq (Cls neg ranges) (Rep n (Cls neg ranges))) r) s
            = shape_match (cls_match neg ranges
                 :: (replicate n (cls_match neg ranges) ++ sh)%list) s).
    rewrite fullmatch_Seq_assoc. by apply has_shape_Cls.
Qed.

Lemma has_shape_Rep_end n neg ranges :
  has_shape (Rep n (Cls neg ranges)) (replicate n (cls_match neg ranges)).
Proof.
  induction n as [|n IH]; [apply has_shape_Eps|].
  by apply has_shape_Cls.
Qed.

(** Tests that agree on every character accept the same strings. *)
Lemma shape_match_ext sh sh' s :
  Forall2 (fun f g : ascii → bool => ∀ c, f c = g c) sh sh' →
  shape_match sh s = shape_match sh' s.
Proof.
  intros H. revert s. induction H as [|f g sh sh' Hfg _ IH]; intros s.
  - reflexivity.
  - destruct s as [|c s]; [reflexivity|]. simpl. by rewrite Hfg, IH.
Qed.

Lemma uuid_chars_shape n i s :
  Nat.eqb (String.length s) n && uuid_chars_from i s
  = shape_match (map uuid_position (seq i n)) s.
Proof.
  revert i s. induction n as [|n IH]; intros i [|c s]; simpl;
    try reflexivity.
  rewrite <- IH. unfold uuid_position at 1.
  destruct (if is_hyphen_position i then _ else _); simpl;
    [reflexivity|apply andb_false_r].
Qed.

Lemma hexdigit_class c :
  cls_match false [("0", "9"); ("a", "f")]%char c = is_hex_lower c.
Proof. by destruct c as [[] [] [] [] [] [] [] []]. Qed.

Lemma hyphen_class c :
  cls_match false [("-", "-")]%char c = Ascii.eqb c "-".
Proof. by destruct c as [[] [] [] [] [] [] [] []]. Qed.

(** [UUIDConverter.regex] matches exactly the canonical text. *)
Theorem uuid_regex_shaped s :
  fullmatch (converter_regex UUIDConverter) s = uuid_shaped s.
Proof.
  unfold uuid_shaped. rewrite uuid_chars_shape.
  pose proof (has_shape_Rep_end 12 false [("0", "9"); ("a", "f")]%char) as H.
  do 3 (apply (has_shape_Cls false [("-", "-")]%char) in H;
        apply (has_shape_Rep 4 false [("0", "9"); ("a", "f")]%char) in H).
  apply (has_shape_Cls false [("-", "-")]%char) in H.
  apply (has_shape_Rep 8 false [("0", "9"); ("a", "f")]%char) in H.
  unfold converter_regex, hexdigit, Chr. rewrite (H s).
  apply shape_match_ext. simpl.
  repeat constructor; intros c; unfold uuid_position; simpl;
    first [apply hexdigit_class | apply hyphen_class].
Qed.

(** ** [uuid.UUID] on the canonical text *)

Lemma hex_lower_value c :
  is_hex_lower c = true → ∃ d, hex_value c = Some d ∧ (0 ≤ d < 16)%Z.
Proof.
  destruct c as [[] [] [] [] [] [] [] []]; try discriminate; intros _;
    eexists; (split; [vm_compute; reflexivity|lia]).
Qed.

Lemma hex_lower_not_hyphen c :
  is_hex_lower c = true → Ascii.eqb c "-" = false.
Proof. by destruct c as [[] [] [] [] [] [] [] []]. Qed.

Lemma int_of_digits_hex s acc :
  forallb is_hex_lower (list_ascii_of_string s) = true → (0 ≤ acc)%Z →
  ∃ n, int_of_digits 16 hex_value acc s = Some n ∧
       (acc * 16 ^ Z.of_nat (String.length s) ≤ n
        < (acc + 1) * 16 ^ Z.of_nat (String.length s))%Z.
Proof.
  revert acc. induction s as [|c s IH]; intros acc F Hacc.
  - exists acc. simpl. split; [reflexivity|lia].
  - simpl in F. apply andb_prop in F as [Hc F].
    destruct (hex_lower_value c Hc) as (d & Hd & Hd0 & Hd16).
    destruct (IH (16 * acc + d)%Z F ltac:(lia)) as (n & Hn & Hlo & Hhi).
    exists n. cbn [int_of_digits String.length]. rewrite Hd.
    assert ((d <? 16)%Z = true) as -> by lia.
    split; [exact Hn|].
    rewrite Nat2Z.inj_succ, Z.pow_succ_r by lia.
    assert (0 < 16 ^ Z.of_nat (String.length s))%Z by (apply Z.pow_pos_nonneg; lia).
    nia.
Qed.

(** Dropping the hyphens of a string that has the canonical shape from
    position [i] on leaves the hexadecimal digits. *)
Lemma remove_hyphens_shape n i s :
  shape_match (map uuid_position (seq i n)) s = true →
  forallb is_hex_lower (list_ascii_of_string (remove_char "-" s)) = true ∧
  String.length (remove_char "-" s)
  = List.length
      (List.filter (fun j => negb (is_hyphen_position j)) (seq i n)).
Proof.
  revert i s. induction n as [|n IH]; intros i [|c s]; simpl;
    try discriminate; [tauto|].
  intros [Hc H]%andb_prop. destruct (IH _ _ H) as [F L].
  unfold uuid_position in Hc. simpl.
  destruct (is_hyphen_position i); simpl.
  - rewrite Hc. split; assumption.
  - rewrite (hex_lower_not_hyphen c Hc). simpl. rewrite Hc, F.
    split; [reflexivity|]. f_equal. exact L.
Qed.

Theorem uuid_UUID_shaped u :
  uuid_shaped u = true →
  ∃ n, uuid_UUID u = Some n ∧ (0 ≤ n < 2 ^ 128)%Z.
Proof.
  unfold uuid_shaped. rewrite uuid_chars_shape. intros H.
  apply remove_hyphens_shape in H as [F L].
  change (String.length (remove_char "-" u) = 32) in L.
  destruct (int_of_digits_hex _ 0 F ltac:(lia)) as (n & Hn & Hlo & Hhi).
  exists n. unfold uuid_UUID. rewrite L. simpl Nat.eqb. cbv iota.
  split; [exact Hn|]. rewrite L in Hlo, Hhi.
  change (16 ^ Z.of_nat 32)%Z with (2 ^ 128)%Z in *. lia.
Qed.

Lemma uuid_shaped_length u : uuid_shaped u = true → String.length u = 36.
Proof.
  unfold uuid_shaped. by intros [L%Nat.eqb_eq _]%andb_prop.
Qed.

(** ** Cutting a path at a parameter *)

Lemma in_splits a b s : In (a, b) (splits s) ↔ s = a +:+ b.
Proof.
  revert a. induction s as [|c s IH]; intros a; simpl.
  - split.
    + intros [[= <- <-]|[]]. reflexivity.
    + intros E. left. symmetry in E.
      apply str_app_nil_inv in E as [-> ->]. reflexivity.
  - split.
    + intros [[= <- <-]|H]; [reflexivity|].
      apply in_map_iff in H as ([a' b'] & [= <- <-] & H).
      apply IH in H as ->. reflexivity.
    + destruct a as [|c' a].
      * rewrite str_app_nil_l. intros <-. by left.
      * rewrite str_app_cons. intros [= -> ->]. right.
        apply in_map_iff. exists (a, b). split; [reflexivity|].
        by apply IH.
Qed.

Lemma first_some_Some {A B} (f : A → option B) l y :
  first_some f l = Some y → ∃ x, In x l ∧ f x = Some y.
Proof.
  induction l as [|x l IH]; simpl; [discriminate|].
  destruct (f x) eqn:E.
  - intros [= <-]. eauto.
  - intros (x' & ? & ?)%IH. eauto.
Qed.

Lemma first_some_unique {A B} (f : A → option B) l x y :
  In x l → f x = Some y →
  (∀ x', In x' l → f x' ≠ None → x' = x) →
  first_some f l = Some y.
Proof.
  induction l as [|x0 l IH]; simpl; [tauto|]. intros Hin Hx Huniq.
  destruct (f x0) eqn:E.
  - assert (x0 = x) as -> by (apply Huniq; [by left|congruence]).
    congruence.
  - destruct Hin as [->|Hin]; [congruence|].
    apply IH; auto.
Qed.

Lemma strip_prefix_spec l s r : strip_prefix l s = Some r ↔ s = l +:+ r.
Proof.
  revert s. induction l as [|a l IH]; intros s; simpl.
  - rewrite str_app_nil_l. split; [by intros [= ->]|by intros ->].
  - rewrite str_app_cons. destruct s as [|b s]; [split; discriminate|].
    destruct (Ascii.eqb_spec a b) as [->|Hne].
    + rewrite IH. split; [by intros ->|by intros [= ->]].
    + split; [discriminate|]. intros [= -> _]. contradiction.
Qed.

(** ** The end of a path *)

Lemma str_app_inv_head (a b c : string) : a +:+ b = a +:+ c → b = c.
Proof.
  induction a as [|x a IH]; [by rewrite !str_app_nil_l|].
  rewrite !str_app_cons. intros [= E]. auto.
Qed.

Lemma str_app_snoc_inj (x y : string) (c d : ascii) :
  x +:+ String c "" = y +:+ String d "" → x = y ∧ c = d.
Proof.
  revert y. induction x as [|e x IH]; intros [|e' y];
    rewrite ?str_app_cons, ?str_app_nil_l.
  - by intros [= ->].
  - intros [= -> E]. symmetry in E. by apply str_app_nil_inv in E as [_ ?].
  - intros [= -> E]. by apply str_app_nil_inv in E as [_ ?].
  - intros [= -> E]. apply IH in E as [-> ->]. tauto.
Qed.

Lemma at_end_spec anchor s : at_end anchor s = true ↔ reaches_end anchor "" s.
Proof.
  unfold reaches_end, newline. rewrite str_app_nil_l.
  destruct s as [|c [|c' s]]; simpl.
  - tauto.
  - destruct anchor.
    + split.
      * intros ->%Ascii.eqb_eq. tauto.
      * intros [|[_ [= ->]]]; [discriminate|reflexivity].
    + split; [discriminate|]. intros [|[? _]]; discriminate.
  - split; [discriminate|]. intros [|[_ ?]]; discriminate.
Qed.

Lemma reaches_end_app anchor a text b :
  reaches_end anchor (a +:+ text) (a +:+ b) ↔ reaches_end anchor text b.
Proof.
  unfold reaches_end. rewrite str_app_assoc. split.
  - intros [E|[Ha E]]; apply str_app_inv_head in E; tauto.
  - intros [->|[Ha ->]]; tauto.
Qed.

Lemma reaches_end_uncons anchor a text p :
  reaches_end anchor (a +:+ text) p →
  ∃ b, p = a +:+ b ∧ reaches_end anchor text b.
Proof.
  intros H. assert (∃ b, p = a +:+ b) as [b ->].
  { destruct H as [->|[_ ->]]; [eauto|]. rewrite str_app_assoc. eauto. }
  exists b. split; [reflexivity|]. by apply reaches_end_app in H.
Qed.

Lemma reaches_end_prefix anchor text p :
  reaches_end anchor text p → ∃ r, p = text +:+ r.
Proof.
  intros [->|[_ ->]]; [|eauto]. exists "". by rewrite str_app_nil_r.
Qed.

Lemma reaches_end_length anchor text p :
  reaches_end anchor text p →
  String.length p = String.length text ∨
  String.length p = S (String.length text).
Proof.
  intros [->|[_ ->]]; [tauto|]. right.
  rewrite str_app_length. simpl. lia.
Qed.

(** A route that ends in literal text. *)
Lemma match_parts_Lit anchor text s g :
  match_parts anchor [Lit text] s = Some g ↔
  reaches_end anchor text s ∧ g = [].
Proof.
  cbn [match_parts]. destruct (strip_prefix text s) as [r|] eqn:E; simpl.
  - apply strip_prefix_spec in E as ->.
    pose proof (reaches_end_app anchor text "" r) as Happ.
    rewrite str_app_nil_r in Happ.
    destruct (at_end anchor r) eqn:A.
    + apply at_end_spec, Happ in A.
      split; [by intros [= <-]|by intros [_ ->]].
    + split; [discriminate|]. intros [H%Happ%at_end_spec _]. congruence.
  - split; [discriminate|]. intros [[r ->]%reaches_end_prefix _].
    assert (strip_prefix text (text +:+ r) = Some r)
      by (by apply strip_prefix_spec). congruence.
Qed.

(** The routes of the shape [<uuid:name>suffix]. *)
Theorem match_parts_uuid anchor nm suffix p g :
  match_parts anchor [Lit ""; Param nm UUIDConverter; Lit suffix] p = Some g
  ↔ ∃ u, uuid_shaped u = true ∧ reaches_end anchor (u +:+ suffix) p ∧
         g = [(nm, UUIDConverter, u)].
Proof.
  cbn [match_parts strip_prefix mbind option_bind].
  set (f := fun cut : string * string =>
              if fullmatch (converter_regex UUIDConverter) cut.1
              then cons (nm, UUIDConverter, cut.1)
                     <$> match_parts anchor [Lit suffix] cut.2
              else None).
  assert (Hf : ∀ a b g', f (a, b) = Some g' ↔
               uuid_shaped a = true ∧ reaches_end anchor suffix b ∧
               g' = [(nm, UUIDConverter, a)]).
  { intros a b g'. unfold f. cbn [fst snd]. rewrite uuid_regex_shaped.
    destruct (uuid_shaped a).
    - destruct (match_parts anchor [Lit suffix] b) as [g0|] eqn:E.
      + apply match_parts_Lit in E as [Hb ->]. simpl.
        split; [by intros [= <-]|by intros (_ & _ & ->)].
      + simpl. split; [discriminate|]. intros (_ & Hb & _).
        assert (match_parts anchor [Lit suffix] b = Some [])
          by (by apply match_parts_Lit). congruence.
    - split; [discriminate|]. by intros [? _]. }
  split.
  - intros ([a b] & Hin & Hab)%first_some_Some.
    apply Hf in Hab as (Ha & Hb & ->).
    apply in_rev, in_splits in Hin as ->.
    exists a. by rewrite reaches_end_app.
  - intros (u & Hu & (b & -> & Hb)%reaches_end_uncons & ->).
    apply (first_some_unique f _ (u, b)).
    + apply in_rev. rewrite rev_involutive. by apply in_splits.
    + by apply Hf.
    + intros [a b'] Hin Hsome.
      destruct (f (a, b')) as [g'|] eqn:E; [|congruence].
      apply Hf in E as (Ha & _ & _).
      apply in_rev, in_splits in Hin.
      apply str_app_inj_length in Hin as [-> ->]; [reflexivity|].
      by rewrite !uuid_shaped_length.
Qed.

(** ** Routes of the builds table *)

Lemma str_app_inv_tail (a b s : string) : a +:+ s = b +:+ s → a = b.
Proof.
  intros E. apply str_app_inj_length in E as [-> _]; [reflexivity|].
  apply (f_equal String.length) in E. rewrite !str_app_length in E. lia.
Qed.

Lemma uuid_path_length u suffix :
  uuid_shaped u = true →
  String.length (u +:+ suffix) = 36 + String.length suffix.
Proof. intros H. by rewrite str_app_length, (uuid_shaped_length u H). Qed.

(** Two readings of one path as identifier and rest have the same
    identifier. *)
Lemma uuid_segment_unique anchor u s seg s' p :
  uuid_shaped u = true → uuid_shaped seg = true →
  reaches_end anchor (u +:+ s) p → reaches_end anchor (seg +:+ s') p →
  u = seg.
Proof.
  intros Hu Hseg (b & -> & _)%reaches_end_uncons
    (b' & E & _)%reaches_end_uncons.
  apply str_app_inj_length in E as [-> _]; [reflexivity|].
  by rewrite !uuid_shaped_length.
Qed.

Lemma route_match_configured anchor route ps p :
  route_to_regex route = Some ps →
  route_match anchor route p ≠ ImproperlyConfigured.
Proof.
  intros E. unfold route_match. rewrite E.
  by destruct (match_parts anchor ps p ≫= convert_groups).
Qed.

Lemma route_match_NoMatch anchor route ps p :
  route_to_regex route = Some ps →
  (∀ kw, route_match anchor route p ≠ Matched kw) →
  route_match anchor route p = NoMatch.
Proof.
  intros E H. pose proof (route_match_configured anchor route ps p E).
  destruct (route_match anchor route p) as [kw| |];
    [|reflexivity|contradiction].
  by destruct (H kw).
Qed.

Lemma route_match_literal anchor route text p kw :
  route_to_regex route = Some [Lit text] →
  route_match anchor route p = Matched kw ↔
  reaches_end anchor text p ∧ kw = [].
Proof.
  intros E. unfold route_match. rewrite E.
  destruct (match_parts anchor [Lit text] p) as [g|] eqn:M; simpl.
  - apply match_parts_Lit in M as [Hp ->]. simpl.
    split; [by intros [= <-]|by intros [_ ->]].
  - split; [discriminate|]. intros [Hp _].
    assert (match_parts anchor [Lit text] p = Some [])
      by (by apply match_parts_Lit). congruence.
Qed.

Lemma route_match_uuid anchor route nm suffix p kw :
  route_to_regex route = Some [Lit ""; Param nm UUIDConverter; Lit suffix] →
  route_match anchor route p = Matched kw ↔
  ∃ seg n, uuid_shaped seg = true ∧ uuid_UUID seg = Some n ∧
           reaches_end anchor (seg +:+ suffix) p ∧ kw = [(nm, PyUUID n)].
Proof.
  intros E. unfold route_match. rewrite E.
  destruct (match_parts anchor _ p) as [g|] eqn:M.
  - apply match_parts_uuid in M as (u & Hu & Hp & ->).
    destruct (uuid_UUID_shaped u Hu) as (n & Hn & _).
    simpl. rewrite Hn. simpl. split.
    + intros [= <-]. eauto 10.
    + intros (seg & n' & Hseg & Hn' & Hp' & ->).
      rewrite (uuid_segment_unique _ _ _ _ _ _ Hu Hseg Hp Hp') in Hn.
      congruence.
  - simpl. split; [discriminate|].
    intros (seg & n & Hseg & Hn & Hp & ->).
    assert (match_parts anchor
              [Lit ""; Param nm UUIDConverter; Lit suffix] p
            = Some [(nm, UUIDConverter, seg)])
      by (apply match_parts_uuid; eauto). congruence.
Qed.

Lemma route_new : route_to_regex "new/" = Some [Lit "new/"].
Proof. reflexivity. Qed.

Lemma route_detail :
  route_to_regex "<uuid:pk>/"
  = Some [Lit ""; Param "pk" UUIDConverter; Lit "/"].
Proof. reflexivity. Qed.

Lemma route_update :
  route_to_regex "<uuid:pk>/edit/"
  = Some [Lit ""; Param "pk" UUIDConverter; Lit "/edit/"].
Proof. reflexivity. Qed.

Lemma route_delete :
  route_to_regex "<uuid:pk>/delete/"
  = Some [Lit ""; Param "pk" UUIDConverter; Lit "/delete/"].
Proof. reflexivity. Qed.

(** A path of one identifier route is a path of no other route: the
    texts after the identifier differ in length by more than the one
    newline the anchor may allow. *)
Lemma uuid_route_apart anchor route nm suffix seg suffix' p :
  route_to_regex route = Some [Lit ""; Param nm UUIDConverter; Lit suffix] →
  uuid_shaped seg = true →
  reaches_end anchor (seg +:+ suffix') p →
  String.length suffix + 1 < String.length suffix' ∨
  String.length suffix' + 1 < String.length suffix →
  route_match anchor route p = NoMatch.
Proof.
  intros E Hseg Hp Hlen. eapply route_match_NoMatch; [exact E|].
  intros kw (seg0 & n & H0 & _ & Hp0 & _)%(route_match_uuid _ _ _ _ _ _ E).
  apply reaches_end_length in Hp, Hp0.
  rewrite uuid_path_length in Hp, Hp0 by assumption. lia.
Qed.

Lemma new_route_apart anchor seg suffix p :
  uuid_shaped seg = true →
  reaches_end anchor (seg +:+ suffix) p →
  route_match anchor "new/" p = NoMatch.
Proof.
  intros Hseg Hp. eapply route_match_NoMatch; [exact route_new|].
  intros kw [Hp0 _]%(route_match_literal _ _ _ _ _ route_new).
  apply reaches_end_length in Hp, Hp0.
  rewrite uuid_path_length in Hp by assumption. simpl in Hp0. lia.
Qed.

(** C1.  The builds URL table has exactly four routes: ['new/'] to the
    create view, ['{id}/'] to the detail view, ['{id}/edit/'] to the
    update view and ['{id}/delete/'] to the delete view.  A path
    resolves exactly when it is the text of one of these four up to the
    anchor, to the view of that route, and the table has no other
    entry. *)
Theorem builds_table_is_four_routes :
  map (fun pat => (Builds.route pat, Builds.callback pat, Builds.name pat))
    Builds.urlpatterns
  = [ ("new/", Builds.CreateView, "new");
      ("<uuid:pk>/", Builds.DetailView, "detail");
      ("<uuid:pk>/edit/", Builds.UpdateView, "update");
      ("<uuid:pk>/delete/", Builds.DeleteView, "delete") ] ∧
  (∀ anchor p m,
     Builds.resolve anchor Builds.urlpatterns p = Matched m ↔
     (reaches_end anchor "new/" p ∧
      m = {| Builds.func := Builds.CreateView; Builds.kwargs := [];
             Builds.url_name := "new" |}) ∨
     (∃ id n, uuid_shaped id = true ∧ uuid_UUID id = Some n ∧
        ((reaches_end anchor (id +:+ "/") p ∧
          m = {| Builds.func := Builds.DetailView;
                 Builds.kwargs := [("pk", PyUUID n)];
                 Builds.url_name := "detail" |}) ∨
         (reaches_end anchor (id +:+ "/edit/") p ∧
          m = {| Builds.func := Builds.UpdateView;
                 Builds.kwargs := [("pk", PyUUID n)];
                 Builds.url_name := "update" |}) ∨
         (reaches_end anchor (id +:+ "/delete/") p ∧
          m = {| Builds.func := Builds.DeleteView;
                 Builds.kwargs := [("pk", PyUUID n)];
                 Builds.url_name := "delete" |})))) ∧
  (∀ anchor p,
     Builds.resolve anchor Builds.urlpatterns p ≠ ImproperlyConfigured).
Proof.
  split; [reflexivity|]. split.
  - intros anchor p m. unfold Builds.urlpatterns.
    cbn [Builds.resolve Builds.route Builds.callback Builds.name]. split.
    + destruct (route_match anchor "new/" p) as [kw| |] eqn:E1.
      { apply (route_match_literal _ _ _ _ _ route_new) in E1 as [Hp ->].
        intros [= <-]. by left. }
      2: discriminate.
      destruct (route_match anchor "<uuid:pk>/" p) as [kw| |] eqn:E2.
      { apply (route_match_uuid _ _ _ _ _ _ route_detail) in E2
          as (id & n & ? & ? & ? & ->).
        intros [= <-]. right. exists id, n. tauto. }
      2: discriminate.
      destruct (route_match anchor "<uuid:pk>/edit/" p) as [kw| |] eqn:E3.
      { apply (route_match_uuid _ _ _ _ _ _ route_update) in E3
          as (id & n & ? & ? & ? & ->).
        intros [= <-]. right. exists id, n. tauto. }
      2: discriminate.
      destruct (route_match anchor "<uuid:pk>/delete/" p) as [kw| |] eqn:E4.
      { apply (route_match_uuid _ _ _ _ _ _ route_delete) in E4
          as (id & n & ? & ? & ? & ->).
        intros [= <-]. right. exists id, n. tauto. }
      all: discriminate.
    + intros [[Hp ->]|(id & n & Hid & Hn & H)].
      { assert (route_match anchor "new/" p = Matched []) as ->
          by (by apply (route_match_literal _ _ _ _ _ route_new)).
        reflexivity. }
      assert (Hm : ∀ route suffix,
                route_to_regex route
                = Some [Lit ""; Param "pk" UUIDConverter; Lit suffix] →
                reaches_end anchor (id +:+ suffix) p →
                route_match anchor route p = Matched [("pk", PyUUID n)]).
      { intros route suffix E Hp.
        apply (route_match_uuid _ _ _ _ _ _ E). eauto 10. }
      destruct H as [[Hp ->]|[[Hp ->]|[Hp ->]]];
        rewrite (new_route_apart _ _ _ _ Hid Hp).
      * by rewrite (Hm _ _ route_detail Hp).
      * rewrite (uuid_route_apart _ _ _ _ _ _ _ route_detail Hid Hp)
          by (simpl; lia).
        by rewrite (Hm _ _ route_update Hp).
      * rewrite (uuid_route_apart _ _ _ _ _ _ _ route_detail Hid Hp)
          by (simpl; lia).
        rewrite (uuid_route_apart _ _ _ _ _ _ _ route_update Hid Hp)
          by (simpl; lia).
        by rewrite (Hm _ _ route_delete Hp).
  - intros anchor p. unfold Builds.urlpatterns.
    cbn [Builds.resolve Builds.route Builds.callback Builds.name].
    pose proof (route_match_configured anchor _ _ p route_new).
    pose proof (route_match_configured anchor _ _ p route_detail).
    pose proof (route_match_configured anchor _ _ p route_update).
    pose proof (route_match_configured anchor _ _ p route_delete).
    destruct (route_match anchor "new/" p);
      [discriminate| |contradiction].
    destruct (route_match anchor "<uuid:pk>/" p);
      [discriminate| |contradiction].
    destruct (route_match anchor "<uuid:pk>/edit/" p);
      [discriminate| |contradiction].
    destruct (route_match anchor "<uuid:pk>/delete/" p);
      [discriminate|discriminate|contradiction].
Qed.

(** C2.  Every route of the builds table that carries an identifier is
    [<uuid:pk>] followed by literal text, and it matches a path exactly
    when the path is a UUID-shaped segment followed by that text: the
    segment is accepted if and only if it has the canonical shape of a
    UUID, its value is a 128-bit integer, and a segment that does not
    parse as a UUID does not match. *)
Theorem identifier_routes_accept_exactly_uuids
    (anchor : end_anchor) (pat : Builds.URLPattern) :
  In pat Builds.urlpatterns →
  has_param (Builds.route pat) = true →
  ∃ suffix,
    Builds.route pat = "<uuid:pk>" +:+ suffix ∧
    (∀ p kw,
       route_match anchor (Builds.route pat) p = Matched kw ↔
       ∃ seg n, uuid_shaped seg = true ∧ uuid_UUID seg = Some n ∧
                reaches_end anchor (seg +:+ suffix) p ∧
                kw = [("pk", PyUUID n)]) ∧
    (∀ seg,
       (∃ kw, route_match anchor (Builds.route pat) (seg +:+ suffix)
              = Matched kw)
       ↔ uuid_shaped seg = true) ∧
    (∀ seg, uuid_shaped seg = true →
            ∃ n, uuid_UUID seg = Some n ∧ (0 ≤ n < 2 ^ 128)%Z) ∧
    (∀ seg, uuid_UUID seg = None →
            route_match anchor (Builds.route pat) (seg +:+ suffix)
            = NoMatch).
Proof.
  intros Hin Hparam.
  assert (∃ suffix,
            Builds.route pat = "<uuid:pk>" +:+ suffix ∧
            route_to_regex (Builds.route pat)
            = Some [Lit ""; Param "pk" UUIDConverter; Lit suffix] ∧
            ∃ s0, suffix = s0 +:+ "/")
    as (suffix & Hroute & E & s0 & Hslash).
  { simpl in Hin. destruct Hin as [<-|[<-|[<-|[<-|[]]]]].
    - discriminate Hparam.
    - exists "/". repeat split. by exists "".
    - exists "/edit/". repeat split. by exists "/edit".
    - exists "/delete/". repeat split. by exists "/delete". }
  exists suffix. split; [exact Hroute|].
  assert (Hmatch := fun p kw => route_match_uuid anchor _ _ _ p kw E).
  assert (Hseg : ∀ seg kw,
            route_match anchor (Builds.route pat) (seg +:+ suffix)
            = Matched kw → uuid_shaped seg = true).
  { intros seg kw (seg' & n & Hs & _ & [Eq|[_ Eq]] & _)%Hmatch.
    - by apply str_app_inv_tail in Eq as ->.
    - rewrite Hslash, <- (str_app_assoc seg) in Eq. unfold newline in Eq.
      by apply str_app_snoc_inj in Eq as [_ ?]. }
  split; [exact Hmatch|]. split; [|split].
  - intros seg. split.
    + intros [kw Hkw]. by eapply Hseg.
    + intros Hs. destruct (uuid_UUID_shaped seg Hs) as (n & Hn & _).
      exists [("pk", PyUUID n)]. apply Hmatch.
      exists seg, n. repeat split; try assumption. by left.
  - apply uuid_UUID_shaped.
  - intros seg Hnone. eapply route_match_NoMatch; [exact E|].
    intros kw Hkw. apply Hseg in Hkw.
    destruct (uuid_UUID_shaped seg Hkw) as (n & Hn & _). congruence.
Qed.

Lemma identifier_routes_witness :
  let anchor := Dollar in
  let pat := Builds.path "<uuid:pk>/edit/" Builds.UpdateView "update" in
  In pat Builds.urlpatterns ∧
  has_param (Builds.route pat) = true ∧
  ∃ suffix,
    Builds.route pat = "<uuid:pk>" +:+ suffix ∧
    (∀ p kw,
       route_match anchor (Builds.route pat) p = Matched kw ↔
       ∃ seg n, uuid_shaped seg = true ∧ uuid_UUID seg = Some n ∧
                reaches_end anchor (seg +:+ suffix) p ∧
                kw = [("pk", PyUUID n)]) ∧
    (∀ seg,
       (∃ kw, route_match anchor (Builds.route pat) (seg +:+ suffix)
              = Matched kw)
       ↔ uuid_shaped seg = true) ∧
    (∀ seg, uuid_shaped seg = true →
            ∃ n, uuid_UUID seg = Some n ∧ (0 ≤ n < 2 ^ 128)%Z) ∧
    (∀ seg, uuid_UUID seg = None →
            route_match anchor (Builds.route pat) (seg +:+ suffix)
            = NoMatch).
Proof.
  assert (Hin : In (Builds.path "<uuid:pk>/edit/" Builds.UpdateView "update")
                   Builds.urlpatterns) by (simpl; tauto).
  split; [exact Hin|]. split; [reflexivity|].
  exact (identifier_routes_accept_exactly_uuids Dollar _ Hin eq_refl).
Defined.

(** The table on concrete paths. *)
Example resolve_new anchor :
  Builds.resolve anchor Builds.urlpatterns "new/"
  = Matched {| Builds.func := Builds.CreateView; Builds.kwargs := [];
               Builds.url_name := "new" |}.
Proof. by destruct anchor. Qed.

Example resolve_update anchor :
  Builds.resolve anchor Builds.urlpatterns
    "12345678-1234-1234-1234-1234567890ab/edit/"
  = Matched {| Builds.func := Builds.UpdateView;
               Builds.kwargs :=
                 [("pk", PyUUID 0x123456781234123412341234567890ab)];
               Builds.url_name := "update" |}.
Proof. destruct anchor; vm_compute; reflexivity. Qed.

Example resolve_upper_case anchor :
  Builds.resolve anchor Builds.urlpatterns
    "12345678-1234-1234-1234-1234567890AB/edit/" = NoMatch.
Proof. destruct anchor; vm_compute; reflexivity. Qed.

Example resolve_no_trailing_slash anchor :
  Builds.resolve anchor Builds.urlpatterns
    "12345678-1234-1234-1234-1234567890ab" = NoMatch.
Proof. destruct anchor; vm_compute; reflexivity. Qed.

(** The one path on which the two anchors differ. *)
Example resolve_trailing_newline :
  Builds.resolve Dollar Builds.urlpatterns ("new/" +:+ newline)
  = Matched {| Builds.func := Builds.CreateView; Builds.kwargs := [];
               Builds.url_name := "new" |} ∧
  Builds.resolve EndOfString Builds.urlpatterns ("new/" +:+ newline)
  = NoMatch.
Proof. split; vm_compute; reflexivity. Qed.

(** * Further properties of the two modules *)

(** ** [ALLOWED_HOSTS]: what the split keeps *)

(** Joining [ALLOWED_HOSTS] with commas gives back the text it was read
    from: the split drops nothing and adds nothing, it trims no blanks
    and keeps empty entries. *)
Theorem allowed_hosts_join_round_trip (environ : Environ) :
  ∃ hosts,
    Settings.ALLOWED_HOSTS environ = Some hosts ∧
    join "," hosts
    = default ".testhost,127.0.0.1,[::1]"
        (environ !! "PEGASUS_ALLOWED_HOSTS").
Proof.
  eexists. split; [apply allowed_hosts_split|]. apply join_split.
Qed.

(** [ALLOWED_HOSTS] has one entry more than the text has commas, and no
    entry contains a comma. *)
Theorem allowed_hosts_entries (environ : Environ) :
  ∃ hosts,
    Settings.ALLOWED_HOSTS environ = Some hosts ∧
    List.length hosts
    = S (count_char ","
           (default ".testhost,127.0.0.1,[::1]"
              (environ !! "PEGASUS_ALLOWED_HOSTS"))) ∧
    Forall (fun h => count_char "," h = 0) hosts.
Proof.
  eexists. split; [apply allowed_hosts_split|].
  split; [apply split_length|apply split_no_sep].
Qed.

(** Every non-empty list of comma-free host patterns can be configured
    exactly: set the variable to the patterns joined by commas. *)
Theorem allowed_hosts_configurable (environ : Environ) (hosts : list string) :
  hosts ≠ [] →
  Forall (fun h => count_char "," h = 0) hosts →
  environ !! "PEGASUS_ALLOWED_HOSTS" = Some (join "," hosts) →
  Settings.ALLOWED_HOSTS environ = Some hosts.
Proof.
  intros Hne Hfree Hset. rewrite allowed_hosts_split, Hset. simpl.
  by rewrite split_join.
Qed.

Lemma allowed_hosts_configurable_witness :
  let environ : Environ :=
    {[ "PEGASUS_ALLOWED_HOSTS" := "hippo.example.com,.internal" ]} in
  let hosts := ["hippo.example.com"; ".internal"] in
  hosts ≠ [] ∧
  Forall (fun h => count_char "," h = 0) hosts ∧
  environ !! "PEGASUS_ALLOWED_HOSTS" = Some (join "," hosts) ∧
  Settings.ALLOWED_HOSTS environ = Some hosts.
Proof.
  assert (H1 : ["hippo.example.com"; ".internal"] ≠ @nil string)
    by discriminate.
  assert (H2 : Forall (fun h => count_char "," h = 0)
                 ["hippo.example.com"; ".internal"])
    by (repeat constructor).
  assert (H3 : ({[ "PEGASUS_ALLOWED_HOSTS" := "hippo.example.com,.internal" ]}
                  : Environ) !! "PEGASUS_ALLOWED_HOSTS"
               = Some (join "," ["hippo.example.com"; ".internal"]))
    by (by rewrite lookup_singleton_eq).
  split; [exact H1|]. split; [exact H2|]. split; [exact H3|].
  exact (allowed_hosts_configurable _ _ H1 H2 H3).
Defined.

(** ** Each setting reads its own variable and no other *)

Lemma environ_get_agree (e1 e2 : Environ) var d :
  e1 !! var = e2 !! var → environ_get e1 var d = environ_get e2 var d.
Proof. unfold environ_get. by intros ->. Qed.

(** The value of a setting read from the environment is decided by its
    own variable: two environments that agree on that variable give the
    setting the same value, whatever else they hold. *)
Theorem setting_depends_on_own_variable
    (e1 e2 : Environ) (s : Settings.env_setting) :
  e1 !! Settings.env_var s = e2 !! Settings.env_var s →
  Settings.setting_value e1 s = Settings.setting_value e2 s.
Proof.
  intros H. destruct s; simpl in *;
    rewrite ?database_NAME, ?database_USER, ?database_PASSWORD,
      ?database_HOST, ?database_PORT;
    unfold Settings.SECRET_KEY, Settings.ALLOWED_HOSTS,
      Settings.REGISTRATION_MODE, Settings.DEFAULT_DOMAIN;
    by rewrite (environ_get_agree e1 e2 _ _ H).
Qed.

Lemma setting_depends_on_own_variable_witness :
  let e1 : Environ := {[ "PEGASUS_DATABASE_NAME" := "hippo_prod" ]} in
  let e2 : Environ :=
    <[ "PEGASUS_DATABASE_USER" := "admin" ]>
      {[ "PEGASUS_DATABASE_NAME" := "hippo_prod" ]} in
  e1 !! Settings.env_var Settings.S_DATABASE_NAME
  = e2 !! Settings.env_var Settings.S_DATABASE_NAME ∧
  Settings.setting_value e1 Settings.S_DATABASE_NAME
  = Settings.setting_value e2 Settings.S_DATABASE_NAME.
Proof.
  assert (H : ({[ "PEGASUS_DATABASE_NAME" := "hippo_prod" ]} : Environ)
              !! Settings.env_var Settings.S_DATABASE_NAME
            = (<[ "PEGASUS_DATABASE_USER" := "admin" ]>
                 {[ "PEGASUS_DATABASE_NAME" := "hippo_prod" ]} : Environ)
              !! Settings.env_var Settings.S_DATABASE_NAME)
    by (vm_compute; reflexivity).
  split; [exact H|].
  exact (setting_depends_on_own_variable _ _ Settings.S_DATABASE_NAME H).
Defined.

Lemma env_var_inj (s s' : Settings.env_setting) :
  Settings.env_var s = Settings.env_var s' → s = s'.
Proof. destruct s, s'; simpl; intros H; try reflexivity; discriminate H. Qed.

(** No two settings read the same variable, so the nine settings can be
    configured independently: for any choice of set and unset variables
    there is an environment that realises it. *)
Theorem settings_independently_configurable
    (wanted : Settings.env_setting → option string) :
  ∃ environ : Environ,
    ∀ s, environ !! Settings.env_var s = wanted s.
Proof.
  set (entry := fun s => pair (Settings.env_var s) <$> wanted s).
  assert (Hin : ∀ (l : list Settings.env_setting) k v,
                  (k, v) ∈ omap entry l ↔
                  ∃ s, s ∈ l ∧ k = Settings.env_var s ∧ wanted s = Some v).
  { intros l k v. rewrite list_elem_of_omap. unfold entry. split.
    - intros (s & Hs & E). exists s. destruct (wanted s); [|discriminate].
      injection E as -> ->. auto.
    - intros (s & Hs & -> & E). exists s. by rewrite E. }
  assert (Hnodup : ∀ l : list Settings.env_setting,
                     NoDup l → NoDup (omap entry l).*1).
  { induction 1 as [|s l Hs Hl IH]; simpl; [constructor|].
    unfold entry at 1. destruct (wanted s) as [v|]; simpl; [|exact IH].
    constructor; [|exact IH].
    intros ([k v'] & Ek & (s' & Hs' & -> & _)%Hin)%list_elem_of_fmap.
    simpl in Ek. apply env_var_inj in Ek as ->. contradiction. }
  assert (Hall : NoDup Settings.env_settings).
  { unfold Settings.env_settings. repeat constructor;
      rewrite ?list_elem_of_In; simpl; intuition discriminate. }
  exists (list_to_map (omap entry Settings.env_settings)). intros s.
  destruct (wanted s) as [v|] eqn:E.
  - apply elem_of_list_to_map; [by apply Hnodup|].
    apply Hin. exists s. split; [|auto].
    apply list_elem_of_In. by destruct s; simpl; tauto.
  - apply not_elem_of_list_to_map.
    intros ([k v] & Ek & (s' & _ & -> & Hw)%Hin)%list_elem_of_fmap.
    simpl in Ek. apply env_var_inj in Ek as ->. congruence.
Qed.

(** ** Slices and suffixes *)

Lemma str_take_drop n s : str_take n s +:+ str_drop n s = s.
Proof.
  revert s. induction n as [|n IH]; intros [|c s]; simpl; try reflexivity.
  by rewrite str_app_cons, IH.
Qed.

Lemma str_drop_app a b : str_drop (String.length a) (a +:+ b) = b.
Proof. induction a as [|c a IH]; [reflexivity|]. by rewrite str_app_cons. Qed.

Lemma str_take_app a b : str_take (String.length a) (a +:+ b) = a.
Proof.
  induction a as [|c a IH]; [by destruct b|].
  rewrite str_app_cons. simpl. by rewrite IH.
Qed.

Lemma str_drop_length n s :
  String.length (str_drop n s) = String.length s - n.
Proof.
  revert s. induction n as [|n IH]; intros [|c s]; simpl; auto with lia.
Qed.

Lemma endswith_spec s suffix :
  endswith s suffix = true ↔ ∃ pre, s = pre +:+ suffix.
Proof.
  unfold endswith. split.
  - intros [_ E%String.eqb_eq]%andb_prop.
    remember (String.length s - String.length suffix) as k.
    exists (str_take k s). rewrite <- E. by rewrite str_take_drop.
  - intros [pre ->]. rewrite str_app_length.
    replace (String.length pre + String.length suffix
             - String.length suffix) with (String.length pre) by lia.
    rewrite str_drop_app, String.eqb_refl, andb_true_r.
    apply Nat.leb_le. lia.
Qed.

Lemma startswith_spec s prefix :
  startswith s prefix = true ↔ ∃ rest, s = prefix +:+ rest.
Proof.
  unfold startswith. split.
  - intros E%String.eqb_eq. remember (String.length prefix) as k.
    exists (str_drop k s). rewrite <- E. by rewrite str_take_drop.
  - intros [rest ->]. by rewrite str_take_app, String.eqb_refl.
Qed.

(** ** Which hosts the configuration admits *)

Lemma request_allowed_hosts_split debug text local_hosts :
  Hosts.request_allowed_hosts debug (split "," text) local_hosts
  = split "," text.
Proof.
  unfold Hosts.request_allowed_hosts.
  pose proof (split_nonempty "," text) as Hne.
  destruct (split "," text); [contradiction|]. by rewrite andb_false_r.
Qed.

Lemma host_allowed_split environ local_hosts host :
  Hosts.host_allowed environ local_hosts host
  = if Hosts.truthy (Settings.SECRET_KEY environ)
    then Some (negb (String.eqb (Hosts.split_domain_port host).1 "")
               && Hosts.validate_host (Hosts.split_domain_port host).1
                    (split ","
                       (default ".testhost,127.0.0.1,[::1]"
                          (environ !! "PEGASUS_ALLOWED_HOSTS"))))
    else None.
Proof.
  unfold Hosts.host_allowed. rewrite allowed_hosts_split.
  destruct (Hosts.truthy _); [|reflexivity]. cbn [mbind option_bind].
  by rewrite request_allowed_hosts_split.
Qed.

(** The list [get_host] validates against is always [ALLOWED_HOSTS]
    itself: the setting is never empty, so the local hosts Django falls
    back to under [DEBUG] are never used, whatever they are.  A host is
    decided by its domain alone, and only where the settings load. *)
Theorem debug_fallback_hosts_never_used
    (environ : Environ) (local_hosts : list string) :
  ∃ hosts,
    Settings.ALLOWED_HOSTS environ = Some hosts ∧
    Hosts.request_allowed_hosts (Settings.DEBUG environ) hosts local_hosts
    = hosts ∧
    ∀ host,
      Hosts.host_allowed environ local_hosts host
      = if Hosts.truthy (Settings.SECRET_KEY environ)
        then Some (negb (String.eqb (Hosts.split_domain_port host).1 "")
                   && Hosts.validate_host (Hosts.split_domain_port host).1
                        hosts)
        else None.
Proof.
  eexists. split; [apply allowed_hosts_split|].
  split; [apply request_allowed_hosts_split|].
  intros host. apply host_allowed_split.
Qed.




(** What [get_host] does with some hosts under the default setting:
    case, port and a final dot do not matter, a name with a character
    outside the pattern has no domain, and [localhost], which Django
    would admit under [DEBUG] were the setting empty, is refused. *)
Example default_hosts_examples :
  let environ : Environ := {[ "PEGASUS_SECRET_KEY" := "not-empty" ]} in
  map (Hosts.host_allowed environ [".localhost"; "127.0.0.1"; "[::1]"])
    ["testhost"; "API.TestHost"; "api.testhost:8000"; "api.testhost.";
     "127.0.0.1:8000"; "[::1]"; "[::1]:8000";
     "a_b.testhost"; "evil host/.testhost"; "localhost"; "example.com";
     "nottesthost"; ""]
  = [Some true; Some true; Some true; Some true;
     Some true; Some true; Some true;
     Some false; Some false; Some false; Some false;
     Some false; Some false] ∧
  Hosts.host_allowed ∅ [] "testhost" = None.
Proof. split; vm_compute; reflexivity. Qed.

(** With [PEGASUS_ALLOWED_HOSTS] set to the empty string no host is
    accepted, [DEBUG] or not: the one pattern of the list is empty and
    matches nothing. *)
Theorem empty_variable_rejects_every_host
    (environ : Environ) (local_hosts : list string) (host : string) :
  environ !! "PEGASUS_ALLOWED_HOSTS" = Some "" →
  Hosts.truthy (Settings.SECRET_KEY environ) = true →
  Hosts.host_allowed environ local_hosts host = Some false.
Proof.
  intros Hset Hkey. rewrite host_allowed_split, Hset, Hkey.
  simpl. by rewrite andb_false_r.
Qed.

Lemma empty_variable_rejects_every_host_witness :
  let environ : Environ :=
    <[ "PEGASUS_ALLOWED_HOSTS" := "" ]>
      {[ "PEGASUS_SECRET_KEY" := "not-empty" ]} in
  environ !! "PEGASUS_ALLOWED_HOSTS" = Some "" ∧
  Hosts.truthy (Settings.SECRET_KEY environ) = true ∧
  Hosts.host_allowed environ [".localhost"] "localhost" = Some false.
Proof.
  intros environ.
  assert (H1 : environ !! "PEGASUS_ALLOWED_HOSTS" = Some "")
    by (vm_compute; reflexivity).
  assert (H2 : Hosts.truthy (Settings.SECRET_KEY environ) = true)
    by (vm_compute; reflexivity).
  split; [exact H1|]. split; [exact H2|].
  exact (empty_variable_rejects_every_host environ [".localhost"]
           "localhost" H1 H2).
Defined.

Lemma split_app sep a b :
  split sep (a +:+ String sep b) = (split sep a ++ split sep b)%list.
Proof.
  induction a as [|c a IH].
  - rewrite str_app_nil_l. simpl. by rewrite Ascii.eqb_refl.
  - rewrite str_app_cons. simpl. rewrite IH.
    destruct (Ascii.eqb c sep); [reflexivity|].
    pose proof (split_nonempty sep a).
    by destruct (split sep a).
Qed.

Lemma validate_host_In host hosts :
  Hosts.validate_host host hosts = true ↔
  ∃ pattern, In pattern hosts ∧
    (pattern = "*" ∨ Hosts.is_same_domain host pattern = true).
Proof.
  unfold Hosts.validate_host. rewrite existsb_exists.
  split; intros (pattern & Hin & H); exists pattern; (split; [exact Hin|]).
  - apply orb_prop in H as [->%String.eqb_eq|H]; auto.
  - destruct H as [->|H]; [reflexivity|]. rewrite H. apply orb_true_r.
Qed.

(** An asterisk among the entries of [PEGASUS_ALLOWED_HOSTS] admits every
    host that has a domain, whatever the other entries are: what is
    left to refuse a host is the pattern of [split_domain_port]. *)
Theorem wildcard_entry_accepts_every_host
    (environ : Environ) (local_hosts : list string) (text host : string) :
  environ !! "PEGASUS_ALLOWED_HOSTS" = Some text →
  In "*" (split "," text) →
  Hosts.truthy (Settings.SECRET_KEY environ) = true →
  Hosts.host_allowed environ local_hosts host
  = Some (negb (String.eqb (Hosts.split_domain_port host).1 "")).
Proof.
  intros Hset Hin Hkey. rewrite host_allowed_split, Hset, Hkey.
  simpl default.
  assert (Hosts.validate_host (Hosts.split_domain_port host).1
            (split "," text) = true) as ->.
  { apply validate_host_In. exists "*". auto. }
  by rewrite andb_true_r.
Qed.

Lemma wildcard_entry_accepts_every_host_witness :
  let environ : Environ :=
    <[ "PEGASUS_ALLOWED_HOSTS" := "hippo.example,*" ]>
      {[ "PEGASUS_SECRET_KEY" := "not-empty" ]} in
  environ !! "PEGASUS_ALLOWED_HOSTS" = Some "hippo.example,*" ∧
  In "*" (split "," "hippo.example,*") ∧
  Hosts.truthy (Settings.SECRET_KEY environ) = true ∧
  Hosts.host_allowed environ [] "Other.Example:8000" = Some true ∧
  Hosts.host_allowed environ [] "foo_bar" = Some false.
Proof.
  intros environ.
  assert (H1 : environ !! "PEGASUS_ALLOWED_HOSTS" = Some "hippo.example,*")
    by (vm_compute; reflexivity).
  assert (H2 : In "*" (split "," "hippo.example,*")) by (simpl; auto).
  assert (H3 : Hosts.truthy (Settings.SECRET_KEY environ) = true)
    by (vm_compute; reflexivity).
  split; [exact H1|]. split; [exact H2|]. split; [exact H3|]. split.
  - exact (wildcard_entry_accepts_every_host environ [] _
             "Other.Example:8000" H1 H2 H3).
  - exact (wildcard_entry_accepts_every_host environ [] _
             "foo_bar" H1 H2 H3).
Defined.

(** Entries are taken as they stand between the commas: appending
    [,more] to the variable keeps every host that was accepted, and
    the hosts it adds are those [more] alone would accept. *)
Theorem appended_hosts_widen
    (environ environ' : Environ) (local_hosts : list string)
    (text more host : string) :
  environ !! "PEGASUS_ALLOWED_HOSTS" = Some text →
  environ' !! "PEGASUS_ALLOWED_HOSTS" = Some (text +:+ "," +:+ more) →
  Hosts.truthy (Settings.SECRET_KEY environ) = true →
  Hosts.truthy (Settings.SECRET_KEY environ') = true →
  Hosts.host_allowed environ' local_hosts host = Some true ↔
  Hosts.host_allowed environ local_hosts host = Some true ∨
  ((Hosts.split_domain_port host).1 ≠ "" ∧
   Hosts.validate_host (Hosts.split_domain_port host).1 (split "," more)
   = true).
Proof.
  intros Hset Hset' Hkey Hkey'.
  rewrite !host_allowed_split, Hset, Hset', Hkey, Hkey'. simpl default.
  change (text +:+ "," +:+ more) with (text +:+ String "," more).
  rewrite split_app. unfold Hosts.validate_host. rewrite existsb_app.
  generalize (Hosts.split_domain_port host).1. intros domain.
  destruct (String.eqb_spec domain "") as [->|Hne]; simpl.
  - split; [discriminate|]. intros [|[]]; by try discriminate.
  - destruct (existsb _ (split "," text)), (existsb _ (split "," more));
      simpl; split; auto; intros [|[]]; by try discriminate.
Qed.

Lemma appended_hosts_widen_witness :
  let environ : Environ :=
    <[ "PEGASUS_ALLOWED_HOSTS" := "a.example" ]>
      {[ "PEGASUS_SECRET_KEY" := "not-empty" ]} in
  let environ' : Environ :=
    <[ "PEGASUS_ALLOWED_HOSTS" := "a.example,b.example" ]>
      {[ "PEGASUS_SECRET_KEY" := "not-empty" ]} in
  environ !! "PEGASUS_ALLOWED_HOSTS" = Some "a.example" ∧
  environ' !! "PEGASUS_ALLOWED_HOSTS"
  = Some ("a.example" +:+ "," +:+ "b.example") ∧
  Hosts.truthy (Settings.SECRET_KEY environ) = true ∧
  Hosts.truthy (Settings.SECRET_KEY environ') = true ∧
  (Hosts.host_allowed environ' [] "b.example" = Some true ↔
   Hosts.host_allowed environ [] "b.example" = Some true ∨
   ((Hosts.split_domain_port "b.example").1 ≠ "" ∧
    Hosts.validate_host (Hosts.split_domain_port "b.example").1
      (split "," "b.example") = true)).
Proof.
  intros environ environ'.
  assert (H1 : environ !! "PEGASUS_ALLOWED_HOSTS" = Some "a.example")
    by (vm_compute; reflexivity).
  assert (H2 : environ' !! "PEGASUS_ALLOWED_HOSTS"
               = Some ("a.example" +:+ "," +:+ "b.example"))
    by (vm_compute; reflexivity).
  assert (H3 : Hosts.truthy (Settings.SECRET_KEY environ) = true)
    by (vm_compute; reflexivity).
  assert (H4 : Hosts.truthy (Settings.SECRET_KEY environ') = true)
    by (vm_compute; reflexivity).
  split; [exact H1|]. split; [exact H2|]. split; [exact H3|].
  split; [exact H4|].
  exact (appended_hosts_widen environ environ' [] _ _ "b.example"
           H1 H2 H3 H4).
Defined.

(** ** Directories of the project *)

Lemma parent_firstn (p : list string) :
  Layout.parent p = firstn (List.length p - 1) p.
Proof.
  unfold Layout.parent. rewrite removelast_firstn_len. f_equal. lia.
Qed.

Lemma base_dir_firstn (file : list string) :
  Layout.BASE_DIR file = firstn (List.length file - 3) file.
Proof.
  unfold Layout.BASE_DIR. rewrite !parent_firstn, !length_firstn.
  rewrite !firstn_firstn. f_equal. lia.
Qed.

Lemma component_spec c :
  Layout.component c = true →
  c ≠ "" ∧ c ≠ "." ∧ count_char "/" c = 0.
Proof.
  unfold Layout.component.
  intros [[H1 H2]%andb_prop H3%Nat.eqb_eq]%andb_prop.
  apply negb_true_iff, String.eqb_neq in H1, H2. auto.
Qed.

Lemma fold_path_app (p : list string) (acc : string) :
  fold_right (fun c rest => "/" +:+ c +:+ rest) acc p
  = fold_right (fun c rest => "/" +:+ c +:+ rest) "" p +:+ acc.
Proof.
  induction p as [|c p IH]; simpl; [by rewrite str_app_nil_l|].
  by rewrite IH, !str_app_assoc.
Qed.

Lemma split_path_text c (p : list string) :
  count_char "/" c = 0 →
  Forall (fun c => Layout.component c = true) p →
  split "/" (c +:+ fold_right (fun c rest => "/" +:+ c +:+ rest) "" p)
  = c :: p.
Proof.
  intros Hc Hp. revert c Hc.
  induction Hp as [|c' p Hc' Hp IH]; intros c Hc; simpl.
  - rewrite str_app_nil_r. by apply split_without_sep.
  - change ("/" +:+ c' +:+ ?r) with (String "/" (c' +:+ r)).
    rewrite split_app_sep by exact Hc. f_equal. apply IH.
    by apply component_spec in Hc' as (_ & _ & ?).
Qed.

Lemma split_fspath (p : list string) :
  Forall (fun c => Layout.component c = true) p →
  split "/" (Layout.fspath p) = "" :: match p with [] => [""] | _ => p end.
Proof.
  intros Hp. destruct p as [|c p]; [reflexivity|].
  inversion Hp as [|? ? Hc Hp']; subst.
  unfold Layout.fspath. simpl fold_right.
  change ("/" +:+ c +:+ ?r) with (String "/" (c +:+ r)).
  simpl split. f_equal. apply split_path_text; [|exact Hp'].
  by apply component_spec in Hc as (_ & _ & ?).
Qed.

Lemma filter_components (p : list string) :
  Forall (fun c => Layout.component c = true) p →
  List.filter (fun c => negb (String.eqb c "") && negb (String.eqb c ".")) p
  = p.
Proof.
  induction 1 as [|c p Hc Hp IH]; simpl; [reflexivity|].
  unfold Layout.component in Hc. apply andb_prop in Hc as [-> _].
  by rewrite IH.
Qed.

Lemma parse_parts_fspath (p : list string) :
  Forall (fun c => Layout.component c = true) p →
  Layout.parse_parts (Layout.fspath p) = p.
Proof.
  intros Hp. unfold Layout.parse_parts. rewrite split_fspath by exact Hp.
  destruct p as [|c p]; [reflexivity|].
  etransitivity; [|exact (filter_components _ Hp)]. reflexivity.
Qed.

Lemma fspath_starts_with_slash (p : list string) :
  ∃ rest, Layout.fspath p = String "/" rest.
Proof. destruct p as [|c p]; [by exists ""|]. simpl. eauto. Qed.

Lemma fspath_not_slash_ended c (p : list string) :
  Forall (fun c => Layout.component c = true) (c :: p) →
  endswith (Layout.fspath (c :: p)) "/" = false.
Proof.
  intros Hp. apply not_true_is_false. intros [pre E]%endswith_spec.
  apply (f_equal (split "/")) in E.
  rewrite split_fspath in E by exact Hp.
  change (pre +:+ "/") with (pre +:+ String "/" "") in E.
  rewrite split_app in E. simpl in E.
  assert (In "" (c :: p)) as Hin.
  { assert (In "" ("" :: c :: p)) as [H|H]; [| |exact H].
    - rewrite E. apply in_or_app. right. by left.
    - pose proof (split_nonempty "/" pre) as Hne.
      destruct (split "/" pre) as [|w ws]; [contradiction|].
      injection E as _ E. rewrite E. apply in_or_app. right. by left. }
  rewrite List.Forall_forall in Hp. apply Hp in Hin. discriminate.
Qed.

Lemma os_path_join_fspath (p : list string) (c : string) :
  Forall (fun c => Layout.component c = true) p →
  Layout.component c = true →
  Layout.os_path_join (Layout.fspath p) c = Layout.fspath (p ++ [c]).
Proof.
  intros Hp Hc. unfold Layout.os_path_join.
  assert (startswith c "/" = false) as ->.
  { apply not_true_is_false. intros [rest ->]%startswith_spec.
    apply component_spec in Hc as (_ & _ & Hc). discriminate. }
  destruct p as [|c' p].
  - simpl. by rewrite str_app_nil_r.
  - rewrite fspath_not_slash_ended by exact Hp.
    destruct (fspath_starts_with_slash (c' :: p)) as [rest E].
    rewrite E at 1. simpl String.eqb. simpl orb. cbv iota.
    unfold Layout.fspath. simpl app. cbv iota.
    change (c' :: p ++ [c])%list with ((c' :: p) ++ [c])%list.
    rewrite fold_right_app. cbn [fold_right].
    rewrite (fold_path_app _ ("/" +:+ c +:+ "")).
    rewrite str_app_nil_r. by rewrite !str_app_assoc.
Qed.

Lemma truediv_fspath (p q : list string) :
  Forall (fun c => Layout.component c = true) q →
  Layout.truediv p (Layout.fspath q) = Some q.
Proof.
  intros Hq. unfold Layout.truediv.
  assert (startswith (Layout.fspath q) "//" = false) as ->.
  { apply not_true_is_false. intros [rest E]%startswith_spec.
    apply (f_equal (split "/")) in E. rewrite split_fspath in E by exact Hq.
    change ("//" +:+ rest) with (String "/" (String "/" rest)) in E.
    simpl in E. destruct q as [|c q].
    - injection E as E. symmetry in E. by apply split_nonempty in E.
    - injection E as -> _. by inversion Hq. }
  destruct (fspath_starts_with_slash q) as [rest E].
  assert (startswith (Layout.fspath q) "/" = true) as ->.
  { apply startswith_spec. exists rest. by rewrite E. }
  simpl. by rewrite parse_parts_fspath.
Qed.

(** [BASE_DIR] is the directory three levels above the settings module
    (for [src/hippo/settings/production.py], the directory [src]); a
    module fewer than three levels below the root gives the root. *)
Theorem base_dir_three_levels_up (file : list string) :
  (∀ base package subpackage module,
     file = (base ++ [package; subpackage; module])%list →
     Layout.BASE_DIR file = base) ∧
  (List.length file ≤ 3 → Layout.BASE_DIR file = [])%nat.
Proof.
  rewrite base_dir_firstn. split.
  - intros base a b c ->. rewrite length_app. simpl.
    replace (List.length base + 3 - 3) with (List.length base + 0) by lia.
    by rewrite firstn_app_2, app_nil_r.
  - intros H. by replace (List.length file - 3) with 0 by lia.
Qed.

(** The two directories configured from [BASE_DIR] lie directly in it:
    the template directory is the path [BASE_DIR / 'templates'], and
    [MEDIA_ROOT], built as a string with [os.path.join], is the text of
    the path [BASE_DIR / 'uploads'] and reads back as that path. *)
Theorem media_root_beside_templates (file : list string) :
  Forall (fun c => Layout.component c = true) file →
  Layout.TEMPLATES_DIRS file = Some [Layout.BASE_DIR file ++ ["templates"]]%list
  ∧ Layout.MEDIA_ROOT file
    = Layout.fspath (Layout.BASE_DIR file ++ ["uploads"])%list
  ∧ Layout.truediv [] (Layout.MEDIA_ROOT file)
    = Some (Layout.BASE_DIR file ++ ["uploads"])%list
  ∧ Layout.truediv (Layout.BASE_DIR file) "uploads"
    = Layout.truediv [] (Layout.MEDIA_ROOT file).
Proof.
  intros Hfile.
  assert (Hbase : Forall (fun c => Layout.component c = true)
                    (Layout.BASE_DIR file)).
  { rewrite base_dir_firstn. by apply Forall_take. }
  assert (Hup : Forall (fun c => Layout.component c = true)
                  (Layout.BASE_DIR file ++ ["uploads"])%list).
  { apply Forall_app. split; [exact Hbase|]. by repeat constructor. }
  assert (E : Layout.MEDIA_ROOT file
              = Layout.fspath (Layout.BASE_DIR file ++ ["uploads"])%list).
  { unfold Layout.MEDIA_ROOT. by apply os_path_join_fspath. }
  assert (T : Layout.truediv [] (Layout.MEDIA_ROOT file)
              = Some (Layout.BASE_DIR file ++ ["uploads"])%list).
  { rewrite E. by apply truediv_fspath. }
  split; [reflexivity|]. split; [exact E|]. split; [exact T|].
  by rewrite T.
Qed.

Lemma media_root_beside_templates_witness :
  let file := ["srv"; "hippo"; "src"; "hippo"; "settings"; "production.py"] in
  Forall (fun c => Layout.component c = true) file ∧
  Layout.MEDIA_ROOT file = "/srv/hippo/src/uploads" ∧
  Layout.TEMPLATES_DIRS file = Some [["srv"; "hippo"; "src"; "templates"]].
Proof.
  intros file.
  assert (H : Forall (fun c => Layout.component c = true) file)
    by (repeat constructor).
  split; [exact H|].
  destruct (media_root_beside_templates file H) as (T & M & _).
  split; [exact M|exact T].
Defined.

(** ** The text of a UUID *)

Lemma uuid_str_hyphenate n :
  uuid_str n = if ((0 <=? n) && (n <? 2 ^ 128))%Z
               then Some (hyphenate (hex_digits 32 n)) else None.
Proof. reflexivity. Qed.

Lemma hex_char_lower d :
  (0 ≤ d < 16)%Z →
  is_hex_lower (hex_char d) = true ∧ hex_value (hex_char d) = Some d.
Proof.
  intros H.
  assert (d = 0 ∨ d = 1 ∨ d = 2 ∨ d = 3 ∨ d = 4 ∨ d = 5 ∨ d = 6 ∨ d = 7 ∨
          d = 8 ∨ d = 9 ∨ d = 10 ∨ d = 11 ∨ d = 12 ∨ d = 13 ∨ d = 14 ∨
          d = 15)%Z as Hd by lia.
  repeat destruct Hd as [->|Hd]; try subst d; split; reflexivity.
Qed.

Lemma hex_char_value c d :
  is_hex_lower c = true → hex_value c = Some d → hex_char d = c.
Proof.
  destruct c as [[] [] [] [] [] [] [] []]; try discriminate; intros _ H;
    vm_compute in H; injection H as <-; reflexivity.
Qed.

Lemma int_of_digits_app base value acc s1 s2 :
  int_of_digits base value acc (s1 +:+ s2)
  = int_of_digits base value acc s1
    ≫= fun a => int_of_digits base value a s2.
Proof.
  revert acc. induction s1 as [|c s1 IH]; intros acc.
  - by rewrite str_app_nil_l.
  - rewrite str_app_cons. simpl. destruct (value c) as [d|]; [|reflexivity].
    destruct (d <? base)%Z; [apply IH|reflexivity].
Qed.

Lemma forallb_str_app (f : ascii → bool) a b :
  forallb f (list_ascii_of_string (a +:+ b))
  = forallb f (list_ascii_of_string a) && forallb f (list_ascii_of_string b).
Proof.
  induction a as [|c a IH]; [by rewrite str_app_nil_l|].
  rewrite str_app_cons. simpl. by rewrite IH, andb_assoc.
Qed.

Lemma hex_digits_length k n : String.length (hex_digits k n) = k.
Proof.
  revert n. induction k as [|k IH]; intros n; simpl; [reflexivity|].
  rewrite str_app_length, IH. simpl. lia.
Qed.

Lemma hex_digits_lower k n :
  forallb is_hex_lower (list_ascii_of_string (hex_digits k n)) = true.
Proof.
  revert n. induction k as [|k IH]; intros n; simpl; [reflexivity|].
  rewrite forallb_str_app, IH. simpl.
  destruct (hex_char_lower (n mod 16)) as [-> _]; [|reflexivity].
  apply Z.mod_pos_bound. lia.
Qed.

(** [int(_, 16)] reads back what ['%0kx'] writes. *)
Lemma int_of_hex_digits k n acc :
  int_of_digits 16 hex_value acc (hex_digits k n)
  = Some (acc * 16 ^ Z.of_nat k + n mod 16 ^ Z.of_nat k)%Z.
Proof.
  revert n. induction k as [|k IH]; intros n.
  - simpl. f_equal. rewrite Z.mod_1_r. lia.
  - cbn [hex_digits]. rewrite int_of_digits_app, IH. simpl mbind.
    cbn [mbind option_bind int_of_digits].
    assert (0 ≤ n mod 16 < 16)%Z as Hd by (apply Z.mod_pos_bound; lia).
    destruct (hex_char_lower _ Hd) as [_ ->].
    assert ((n mod 16 <? 16)%Z = true) as -> by lia.
    f_equal. rewrite Nat2Z.inj_succ, Z.pow_succ_r by lia.
    assert (0 < 16 ^ Z.of_nat k)%Z by (apply Z.pow_pos_nonneg; lia).
    rewrite (Z.rem_mul_r n 16 (16 ^ Z.of_nat k)) by lia. lia.
Qed.

Lemma str_snoc_destruct s :
  s = "" ∨ ∃ s' c, s = s' +:+ String c "".
Proof.
  induction s as [|c s IH]; [by left|]. right.
  destruct IH as [->|(s' & c' & ->)].
  - by exists "", c.
  - exists (String c s'), c'. by rewrite str_app_cons.
Qed.

(** ['%0kx'] writes back the digits [int(_, 16)] has read. *)
Lemma hex_digits_of_int k : ∀ s acc m,
  String.length s = k →
  forallb is_hex_lower (list_ascii_of_string s) = true →
  int_of_digits 16 hex_value acc s = Some m →
  hex_digits k m = s.
Proof.
  induction k as [|k IH]; intros s acc m L F E.
  - by destruct s.
  - destruct (str_snoc_destruct s) as [->|(s' & c & ->)]; [discriminate|].
    rewrite str_app_length in L. simpl in L.
    rewrite forallb_str_app in F. apply andb_prop in F as [F Hc].
    simpl in Hc. rewrite andb_true_r in Hc.
    rewrite int_of_digits_app in E.
    destruct (int_of_digits 16 hex_value acc s') as [a|] eqn:Ea;
      [|discriminate].
    cbn [mbind option_bind int_of_digits] in E.
    destruct (hex_lower_value c Hc) as (d & Hd & Hd16).
    rewrite Hd in E. assert ((d <? 16)%Z = true) as Hlt by lia.
    rewrite Hlt in E. injection E as <-.
    cbn [hex_digits].
    rewrite <- (Z.div_unique (16 * a + d) 16 a d) by lia.
    rewrite <- (Z.mod_unique (16 * a + d) 16 a d) by lia.
    rewrite (IH s' acc a) by (assumption || lia).
    by rewrite (hex_char_value c d Hc Hd).
Qed.

Lemma remove_char_ne c d s :
  Ascii.eqb d c = false →
  remove_char c (String d s) = String d (remove_char c s).
Proof. intros H. simpl. by rewrite H. Qed.

Lemma remove_char_eq c s : remove_char c (String c s) = remove_char c s.
Proof. simpl. by rewrite Ascii.eqb_refl. Qed.

Lemma shaped_hyphenate seg :
  uuid_shaped seg = true → hyphenate (remove_char "-" seg) = seg.
Proof.
  unfold uuid_shaped. intros [L%Nat.eqb_eq H]%andb_prop.
  do 36 (destruct seg as [|? seg]; [discriminate L|]).
  destruct seg; [|discriminate L]. clear L.
  cbn [uuid_chars_from is_hyphen_position existsb Nat.eqb orb] in H.
  repeat (apply andb_prop in H as [? H]). clear H.
  repeat match goal with
  | Hc : Ascii.eqb ?c "-" = true |- _ => apply Ascii.eqb_eq in Hc; subst c
  | Hc : is_hex_lower ?c = true |- _ => apply hex_lower_not_hyphen in Hc
  end.
  repeat first [rewrite remove_char_eq | rewrite remove_char_ne by assumption].
  reflexivity.
Qed.

Lemma hyphenate_shaped hex :
  String.length hex = 32 →
  forallb is_hex_lower (list_ascii_of_string hex) = true →
  uuid_shaped (hyphenate hex) = true ∧ remove_char "-" (hyphenate hex) = hex.
Proof.
  intros L F.
  do 32 (destruct hex as [|? hex]; [discriminate L|]).
  destruct hex; [|discriminate L]. clear L.
  cbn [forallb list_ascii_of_string] in F.
  repeat (apply andb_prop in F as [? F]). clear F.
  cbv [hyphenate str_take str_drop String.append]. split.
  - unfold uuid_shaped.
    cbn [String.length Nat.eqb uuid_chars_from is_hyphen_position existsb
         orb andb].
    repeat (apply andb_true_intro; split); try assumption; reflexivity.
  - repeat match goal with
    | Hc : is_hex_lower ?c = true |- _ => apply hex_lower_not_hyphen in Hc
    end.
    repeat first [rewrite remove_char_eq | rewrite remove_char_ne by assumption].
    reflexivity.
Qed.

Lemma uuid_str_shaped n seg :
  uuid_str n = Some seg → uuid_shaped seg = true ∧ uuid_UUID seg = Some n.
Proof.
  rewrite uuid_str_hyphenate.
  destruct ((0 <=? n) && (n <? 2 ^ 128))%Z eqn:R; [|discriminate].
  intros H. apply (inj Some) in H. subst seg.
  destruct (hyphenate_shaped (hex_digits 32 n)) as [S E];
    [apply hex_digits_length|apply hex_digits_lower|].
  split; [exact S|]. unfold uuid_UUID. rewrite E, hex_digits_length.
  simpl Nat.eqb. cbv iota. rewrite int_of_hex_digits. f_equal.
  change (16 ^ Z.of_nat 32)%Z with (2 ^ 128)%Z.
  rewrite Z.mod_small by lia. lia.
Qed.

Lemma uuid_str_of_shaped n seg :
  uuid_shaped seg = true → uuid_UUID seg = Some n → uuid_str n = Some seg.
Proof.
  rewrite uuid_str_hyphenate. intros S E. pose proof S as S'.
  unfold uuid_shaped in S'. rewrite uuid_chars_shape in S'.
  apply remove_hyphens_shape in S' as [F L].
  change (String.length (remove_char "-" seg) = 32) in L.
  unfold uuid_UUID in E. rewrite L in E. simpl Nat.eqb in E. cbv iota in E.
  destruct (int_of_digits_hex _ 0 F ltac:(lia)) as (n' & Hn & Hlo & Hhi).
  rewrite E in Hn. injection Hn as <-. rewrite L in Hlo, Hhi.
  change (16 ^ Z.of_nat 32)%Z with (2 ^ 128)%Z in *.
  assert (((0 <=? n) && (n <? 2 ^ 128))%Z = true) as -> by lia.
  rewrite (hex_digits_of_int 32 _ 0 n L F E).
  by rewrite shaped_hyphenate.
Qed.

Lemma uuid_str_defined n :
  (0 ≤ n < 2 ^ 128)%Z → ∃ seg, uuid_str n = Some seg.
Proof.
  intros H. rewrite uuid_str_hyphenate.
  assert (((0 <=? n) && (n <? 2 ^ 128))%Z = true) as -> by lia. eauto.
Qed.

(** The [uuid] converter's [to_url] and [to_python] are inverse to each
    other on the segments the routes accept: the text written for a
    UUID is the one segment of canonical shape that is read as that
    UUID. *)
Theorem uuid_text_round_trip (seg : string) (n : Z) :
  to_url UUIDConverter (PyUUID n) = Some seg ↔
  uuid_shaped seg = true ∧ to_python UUIDConverter seg = Some (PyUUID n).
Proof.
  unfold to_url, to_python, py_str. split.
  - intros [S E]%uuid_str_shaped. by rewrite E.
  - intros [S E]. destruct (uuid_UUID seg) as [n'|] eqn:E'; [|discriminate].
    apply (inj Some) in E. injection E as ->.
    by apply uuid_str_of_shaped.
Qed.

(** ** The table as a whole *)

Lemma resolve_first anchor patterns p pat kw :
  In pat patterns →
  route_match anchor (Builds.route pat) p = Matched kw →
  (∀ q, In q patterns →
        route_match anchor (Builds.route q) p = NoMatch ∨ q = pat) →
  Builds.resolve anchor patterns p
  = Matched {| Builds.func := Builds.callback pat; Builds.kwargs := kw;
               Builds.url_name := Builds.name pat |}.
Proof.
  intros Hin Hm Hothers. induction patterns as [|q patterns IH]; [destruct Hin|].
  simpl. destruct (Hothers q (or_introl eq_refl)) as [E | ->].
  - rewrite E. destruct Hin as [->|Hin]; [by rewrite Hm in E|].
    apply IH; [exact Hin|]. intros q' Hq'. apply Hothers. by right.
  - by rewrite Hm.
Qed.

Lemma resolve_none anchor patterns p :
  (∀ q, In q patterns → route_match anchor (Builds.route q) p = NoMatch) →
  Builds.resolve anchor patterns p = NoMatch.
Proof.
  induction patterns as [|q patterns IH]; intros H; [reflexivity|].
  simpl. rewrite (H q (or_introl eq_refl)). apply IH.
  intros q' Hq'. apply H. by right.
Qed.

Lemma resolve_cases anchor patterns p :
  (∀ q, In q patterns →
        route_match anchor (Builds.route q) p ≠ ImproperlyConfigured) →
  (∃ pat kw, In pat patterns ∧
             route_match anchor (Builds.route pat) p = Matched kw) ∨
  (∀ q, In q patterns → route_match anchor (Builds.route q) p = NoMatch).
Proof.
  induction patterns as [|q patterns IH]; intros H; [right; intros ? []|].
  destruct (route_match anchor (Builds.route q) p) as [kw| |] eqn:E.
  - left. exists q, kw. split; [by left|exact E].
  - destruct IH as [(pat & kw & Hin & Hm)|Hnone].
    + intros q' Hq'. apply H. by right.
    + left. exists pat, kw. split; [by right|exact Hm].
    + right. intros q' [<-|Hq']; [exact E|by apply Hnone].
  - destruct (H q (or_introl eq_refl) E).
Qed.

(** What each entry of the table compiles to. *)
Lemma builds_routes pat :
  In pat Builds.urlpatterns →
  pat = Builds.path "new/" Builds.CreateView "new" ∧
  route_to_regex (Builds.route pat) = Some [Lit "new/"] ∨
  ∃ suffix suffix',
    route_to_regex (Builds.route pat)
    = Some [Lit ""; Param "pk" UUIDConverter; Lit suffix] ∧
    suffix = suffix' +:+ "/" ∧
    In (suffix, pat)
       [("/", Builds.path "<uuid:pk>/" Builds.DetailView "detail");
        ("/edit/", Builds.path "<uuid:pk>/edit/" Builds.UpdateView "update");
        ("/delete/",
         Builds.path "<uuid:pk>/delete/" Builds.DeleteView "delete")].
Proof.
  intros [<-|[<-|[<-|[<-|[]]]]].
  - left. split; [reflexivity|exact route_new].
  - right. exists "/", "". split; [exact route_detail|]. simpl. auto.
  - right. exists "/edit/", "/edit". split; [exact route_update|].
    simpl. auto.
  - right. exists "/delete/", "/delete". split; [exact route_delete|].
    simpl. auto 6.
Qed.

Lemma builds_routes_configured anchor pat p :
  In pat Builds.urlpatterns →
  route_match anchor (Builds.route pat) p ≠ ImproperlyConfigured.
Proof.
  intros [(_ & E)|(suffix & ? & E & _)]%builds_routes;
    exact (route_match_configured _ _ _ _ E).
Qed.

(** No path is matched by two entries of the table. *)
Lemma builds_routes_exclusive anchor p pat kw q :
  In pat Builds.urlpatterns →
  route_match anchor (Builds.route pat) p = Matched kw →
  In q Builds.urlpatterns →
  route_match anchor (Builds.route q) p = NoMatch ∨ q = pat.
Proof.
  intros Hpat Hm Hq.
  destruct (builds_routes pat Hpat)
    as [[-> E]|(suffix & ? & E & _ & Hs)];
  destruct (builds_routes q Hq)
    as [[-> E']|(suffix' & ? & E' & _ & Hs')].
  - by right.
  - left. apply (route_match_NoMatch _ _ _ _ E'). intros kw' Hm'.
    apply (route_match_uuid _ _ _ _ _ _ E') in Hm'
      as (seg & n & Hseg & _ & Hp & _).
    cbn [Builds.route] in Hm.
    by rewrite (new_route_apart _ _ _ _ Hseg Hp) in Hm.
  - left. apply (route_match_uuid _ _ _ _ _ _ E) in Hm
      as (seg & n & Hseg & _ & Hp & _).
    exact (new_route_apart _ _ _ _ Hseg Hp).
  - apply (route_match_uuid _ _ _ _ _ _ E) in Hm
      as (seg & n & Hseg & _ & Hp & _).
    simpl in Hs, Hs'.
    destruct Hs as [[= <- <-]|[[= <- <-]|[[= <- <-]|[]]]];
    destruct Hs' as [[= <- <-]|[[= <- <-]|[[= <- <-]|[]]]];
      try (by right);
      left; apply (uuid_route_apart _ _ _ _ _ _ _ E' Hseg Hp); simpl; lia.
Qed.

(** The order of the entries is immaterial: the routes exclude each
    other, so the table resolves every path the same way in whatever
    order its four entries are listed. *)
Theorem table_order_irrelevant
    (anchor : end_anchor) (patterns : list Builds.URLPattern) (p : string) :
  Permutation patterns Builds.urlpatterns →
  Builds.resolve anchor patterns p
  = Builds.resolve anchor Builds.urlpatterns p.
Proof.
  intros Hperm.
  destruct (resolve_cases anchor Builds.urlpatterns p)
    as [(pat & kw & Hin & Hm)|Hnone].
  - intros q Hq. by apply builds_routes_configured.
  - rewrite (resolve_first anchor Builds.urlpatterns p pat kw Hin Hm).
    + apply resolve_first; [|exact Hm|].
      * apply (Permutation_in _ (Permutation_sym Hperm) Hin).
      * intros q Hq. apply (builds_routes_exclusive _ _ _ kw); try assumption.
        exact (Permutation_in _ Hperm Hq).
    + intros q Hq. by apply (builds_routes_exclusive _ _ _ kw).
  - rewrite (resolve_none _ _ _ Hnone). apply resolve_none.
    intros q Hq. apply Hnone. exact (Permutation_in _ Hperm Hq).
Qed.

Lemma table_order_irrelevant_witness :
  Permutation (rev Builds.urlpatterns) Builds.urlpatterns ∧
  Builds.resolve Dollar (rev Builds.urlpatterns) "new/"
  = Builds.resolve Dollar Builds.urlpatterns "new/".
Proof.
  assert (H : Permutation (rev Builds.urlpatterns) Builds.urlpatterns)
    by (apply Permutation_sym, Permutation_rev).
  split; [exact H|].
  exact (table_order_irrelevant Dollar _ "new/" H).
Defined.

(** ** Reversing a route *)

Lemma quote_app safe a b :
  quote safe (a +:+ b) = quote safe a +:+ quote safe b.
Proof.
  induction a as [|c a IH]; [by rewrite !str_app_nil_l|].
  rewrite str_app_cons. cbn [quote]. by rewrite IH, str_app_assoc.
Qed.

Lemma quote_unreserved safe s :
  forallb (fun c => always_safe c
                    || existsb (Ascii.eqb c) (list_ascii_of_string safe))
    (list_ascii_of_string s) = true →
  quote safe s = s.
Proof.
  induction s as [|c s IH]; [reflexivity|]. cbn [forallb list_ascii_of_string quote].
  intros [-> H]%andb_prop. rewrite (IH H).
  by rewrite str_app_cons, str_app_nil_l.
Qed.

Lemma hex_lower_always_safe c : is_hex_lower c = true → always_safe c = true.
Proof. by destruct c as [[] [] [] [] [] [] [] []]. Qed.

Lemma uuid_chars_unreserved safe i s :
  uuid_chars_from i s = true → quote safe s = s.
Proof.
  intros H. apply quote_unreserved. revert i H.
  induction s as [|c s IH]; intros i; [reflexivity|].
  cbn [uuid_chars_from forallb list_ascii_of_string].
  intros [Hc H]%andb_prop. rewrite (IH _ H), andb_true_r.
  destruct (is_hyphen_position i).
  - by apply Ascii.eqb_eq in Hc as ->.
  - by rewrite (hex_lower_always_safe c Hc).
Qed.

Lemma quote_uuid_shaped safe seg : uuid_shaped seg = true → quote safe seg = seg.
Proof.
  unfold uuid_shaped. intros [_ H]%andb_prop.
  by apply (uuid_chars_unreserved safe 0).
Qed.

Lemma substitute_uuid nm conv suffix kw :
  substitute [Lit ""; Param nm conv; Lit suffix] kw
  = v ← kwargs_get nm kw; text ← to_url conv v; Some (text +:+ suffix).
Proof.
  cbn [substitute]. destruct (kwargs_get nm kw) as [v|]; [|reflexivity].
  cbn [mbind option_bind]. destruct (to_url conv v) as [text|]; [|reflexivity].
  cbn [mbind option_bind]. by rewrite str_app_nil_r, str_app_nil_l.
Qed.

Lemma slash_ended_reaches_end anchor u seg suffix :
  reaches_end anchor (u +:+ suffix +:+ "/") (seg +:+ suffix +:+ "/") →
  u = seg.
Proof.
  intros [E|[_ E]].
  - rewrite <- !str_app_assoc in E.
    apply str_app_inv_tail in E. by apply str_app_inv_tail in E.
  - exfalso. unfold newline in E.
    rewrite <- (str_app_assoc seg) in E.
    change ((seg +:+ suffix) +:+ "/")
      with ((seg +:+ suffix) +:+ String "/" "") in E.
    by apply str_app_snoc_inj in E as [_ ?].
Qed.

Lemma same_keys_nil kw : same_keys kw [] = true → kw = [].
Proof. destruct kw as [|[k v] kw]; [reflexivity|discriminate]. Qed.

Lemma same_keys_one nm kw k :
  same_keys kw [nm] = true → In k (map fst kw) → k = nm.
Proof.
  unfold same_keys. intros [H _]%andb_prop Hin.
  rewrite forallb_forall in H. apply H in Hin. simpl in Hin.
  rewrite orb_false_r in Hin. by apply String.eqb_eq.
Qed.

Lemma reverse_pattern_literal anchor prefix pat text kw url :
  route_to_regex (Builds.route pat) = Some [Lit text] →
  reverse_pattern anchor prefix pat kw = Some url ↔
  kw = [] ∧
  url = escape_leading_slashes (quote reverse_safe (prefix +:+ text)).
Proof.
  intros E. unfold reverse_pattern. rewrite E. cbn [mbind option_bind].
  cbn [param_names omap list_omap substitute mbind option_bind].
  rewrite str_app_nil_r.
  assert (match_parts anchor [Lit text] text = Some []) as ->.
  { apply match_parts_Lit. split; [by left|reflexivity]. }
  cbn [mbind option_bind]. split.
  - destruct (same_keys kw []) eqn:K; [|discriminate].
    apply same_keys_nil in K as ->. intros H. apply (inj Some) in H. auto.
  - by intros [-> ->].
Qed.

Lemma reverse_pattern_uuid anchor prefix pat suffix suffix' kw url :
  route_to_regex (Builds.route pat)
  = Some [Lit ""; Param "pk" UUIDConverter; Lit suffix] →
  suffix = suffix' +:+ "/" →
  reverse_pattern anchor prefix pat kw = Some url ↔
  same_keys kw ["pk"] = true ∧
  ∃ v seg, kwargs_get "pk" kw = Some v ∧ py_str v = Some seg ∧
           uuid_shaped seg = true ∧
           url = escape_leading_slashes
                   (quote reverse_safe (prefix +:+ seg +:+ suffix)).
Proof.
  intros E Hs. unfold reverse_pattern. rewrite E. cbn [mbind option_bind].
  cbn [param_names omap list_omap]. rewrite substitute_uuid.
  unfold to_url. split.
  - destruct (same_keys kw ["pk"]); [|discriminate].
    destruct (kwargs_get "pk" kw) as [v|]; [|discriminate].
    cbn [mbind option_bind].
    destruct (py_str v) as [seg|] eqn:Hv; [|discriminate].
    cbn [mbind option_bind].
    destruct (match_parts anchor _ (seg +:+ suffix)) as [g|] eqn:M;
      [|discriminate].
    cbn [mbind option_bind]. intros H. apply (inj Some) in H.
    split; [reflexivity|]. exists v, seg.
    apply match_parts_uuid in M as (u & Hu & Hend & _).
    rewrite Hs in Hend. apply slash_ended_reaches_end in Hend as ->.
    by rewrite <- H.
  - intros (-> & v & seg & -> & Hv & Hseg & ->).
    cbn [mbind option_bind]. rewrite Hv. cbn [mbind option_bind].
    assert (∃ g, match_parts anchor
                   [Lit ""; Param "pk" UUIDConverter; Lit suffix]
                   (seg +:+ suffix) = Some g) as [g ->].
    { eexists. apply match_parts_uuid. exists seg.
      split; [exact Hseg|]. split; [by left|reflexivity]. }
    reflexivity.
Qed.

Lemma reverse_inv anchor prefix patterns name kw url :
  reverse anchor prefix patterns name kw = Some url →
  ∃ pat, In pat patterns ∧ Builds.name pat = name ∧
         reverse_pattern anchor prefix pat kw = Some url.
Proof.
  unfold reverse. intros (pat & Hin & H)%first_some_Some.
  apply filter_In in Hin as [Hin Hn%String.eqb_eq].
  apply in_rev in Hin. eauto.
Qed.

Lemma builds_name_inj pat pat' :
  In pat Builds.urlpatterns → In pat' Builds.urlpatterns →
  Builds.name pat = Builds.name pat' → pat = pat'.
Proof.
  intros [<-|[<-|[<-|[<-|[]]]]] [<-|[<-|[<-|[<-|[]]]]] H;
    try reflexivity; discriminate H.
Qed.

Lemma reverse_named anchor prefix pat kw :
  In pat Builds.urlpatterns →
  reverse anchor prefix Builds.urlpatterns (Builds.name pat) kw
  = reverse_pattern anchor prefix pat kw.
Proof.
  intros [<-|[<-|[<-|[<-|[]]]]]; unfold reverse;
    match goal with
    | |- context [List.filter ?f ?l] =>
        let r := eval vm_compute in (List.filter f l) in
        change (List.filter f l) with r
    end;
    cbn [first_some]; by destruct (reverse_pattern _ _ _ _).
Qed.

Lemma resolve_Matched_inv anchor patterns p m :
  Builds.resolve anchor patterns p = Matched m →
  ∃ pat kw, In pat patterns ∧
    route_match anchor (Builds.route pat) p = Matched kw ∧
    m = {| Builds.func := Builds.callback pat; Builds.kwargs := kw;
           Builds.url_name := Builds.name pat |}.
Proof.
  induction patterns as [|q patterns IH]; [discriminate|]. simpl.
  destruct (route_match anchor (Builds.route q) p) as [kw| |] eqn:E.
  - intros H. exists q, kw. split; [by left|]. split; [exact E|].
    by injection H as <-.
  - intros (pat & kw & Hin & Hm & ->)%IH. exists pat, kw.
    split; [by right|]. auto.
  - discriminate.
Qed.

Lemma resolve_builds anchor pat p kw :
  In pat Builds.urlpatterns →
  route_match anchor (Builds.route pat) p = Matched kw →
  Builds.resolve anchor Builds.urlpatterns p
  = Matched {| Builds.func := Builds.callback pat; Builds.kwargs := kw;
               Builds.url_name := Builds.name pat |}.
Proof.
  intros Hin Hm. apply resolve_first; [exact Hin|exact Hm|].
  intros q Hq. by apply (builds_routes_exclusive _ _ _ kw).
Qed.

Lemma quote_uuid_body seg suffix pat :
  uuid_shaped seg = true →
  In (suffix, pat)
     [("/", Builds.path "<uuid:pk>/" Builds.DetailView "detail");
      ("/edit/", Builds.path "<uuid:pk>/edit/" Builds.UpdateView "update");
      ("/delete/",
       Builds.path "<uuid:pk>/delete/" Builds.DeleteView "delete")] →
  ∀ prefix,
    quote reverse_safe (prefix +:+ seg +:+ suffix)
    = quote reverse_safe prefix +:+ seg +:+ suffix.
Proof.
  intros Hseg Hs prefix. rewrite !quote_app, (quote_uuid_shaped _ _ Hseg).
  do 2 f_equal. apply quote_unreserved.
  by destruct Hs as [[= <- _]|[[= <- _]|[[= <- _]|[]]]].
Qed.

(** Reversing a route for a UUID gives a URL whose path resolves back
    to that route's view with that UUID: behind the quoted prefix the
    URL is the UUID's text and the route's literal text, and nothing
    in it needs quoting. *)
Theorem reverse_then_resolve
    (anchor : end_anchor) (prefix : string) (pat : Builds.URLPattern)
    (n : Z) :
  In pat Builds.urlpatterns →
  has_param (Builds.route pat) = true →
  (0 ≤ n < 2 ^ 128)%Z →
  ∃ body,
    reverse anchor prefix Builds.urlpatterns (Builds.name pat)
      [("pk", PyUUID n)]
    = Some (escape_leading_slashes (quote reverse_safe prefix +:+ body)) ∧
    Builds.resolve anchor Builds.urlpatterns body
    = Matched {| Builds.func := Builds.callback pat;
                 Builds.kwargs := [("pk", PyUUID n)];
                 Builds.url_name := Builds.name pat |}.
Proof.
  intros Hin Hparam Hn.
  destruct (builds_routes pat Hin) as [[_ E]|(suffix & suffix' & E & Hs & Hp)].
  { unfold has_param in Hparam. rewrite E in Hparam. discriminate. }
  destruct (uuid_str_defined n Hn) as [seg Hseg].
  destruct (uuid_str_shaped n seg Hseg) as [Hshape Hvalue].
  exists (seg +:+ suffix). split.
  - rewrite (reverse_named _ _ _ _ Hin).
    apply (reverse_pattern_uuid _ _ _ _ _ _ _ E Hs).
    split; [reflexivity|]. exists (PyUUID n), seg.
    split; [reflexivity|]. split; [exact Hseg|]. split; [exact Hshape|].
    by rewrite (quote_uuid_body _ _ _ Hshape Hp).
  - apply (resolve_builds _ _ _ _ Hin).
    apply (route_match_uuid _ _ _ _ _ _ E). exists seg, n.
    split; [exact Hshape|]. split; [exact Hvalue|].
    split; [by left|reflexivity].
Qed.

Lemma reverse_then_resolve_witness :
  let pat := Builds.path "<uuid:pk>/edit/" Builds.UpdateView "update" in
  let n := 0x123456781234123412341234567890ab%Z in
  In pat Builds.urlpatterns ∧
  has_param (Builds.route pat) = true ∧
  (0 ≤ n < 2 ^ 128)%Z ∧
  ∃ body,
    reverse Dollar "/builds/" Builds.urlpatterns (Builds.name pat)
      [("pk", PyUUID n)]
    = Some (escape_leading_slashes
              (quote reverse_safe "/builds/" +:+ body)) ∧
    Builds.resolve Dollar Builds.urlpatterns body
    = Matched {| Builds.func := Builds.callback pat;
                 Builds.kwargs := [("pk", PyUUID n)];
                 Builds.url_name := Builds.name pat |}.
Proof.
  intros pat n.
  assert (H1 : In pat Builds.urlpatterns) by (simpl; auto).
  assert (H2 : has_param (Builds.route pat) = true) by reflexivity.
  assert (H3 : (0 ≤ n < 2 ^ 128)%Z) by (unfold n; lia).
  split; [exact H1|]. split; [exact H2|]. split; [exact H3|].
  exact (reverse_then_resolve Dollar "/builds/" pat n H1 H2 H3).
Defined.

(** Reversing what a path resolved to gives that path back: the view's
    name and keyword arguments of a match reverse to a URL that is the
    quoted prefix followed by a path [body], and the paths that resolve
    to this match are exactly those that reach the end of [body]:
    [body] itself and, under [$], [body] followed by one newline. *)
Theorem resolve_then_reverse
    (anchor : end_anchor) (prefix : string) (p : string)
    (m : Builds.ResolverMatch) :
  Builds.resolve anchor Builds.urlpatterns p = Matched m →
  ∃ body,
    reverse anchor prefix Builds.urlpatterns (Builds.url_name m)
      (Builds.kwargs m)
    = Some (escape_leading_slashes (quote reverse_safe prefix +:+ body)) ∧
    ∀ p', Builds.resolve anchor Builds.urlpatterns p' = Matched m ↔
          reaches_end anchor body p'.
Proof.
  intros (pat & kw & Hin & Hm & ->)%resolve_Matched_inv.
  cbn [Builds.url_name Builds.kwargs].
  rewrite (reverse_named _ _ _ _ Hin).
  destruct (builds_routes pat Hin) as [[-> E]|(suffix & suffix' & E & Hs & Hp)].
  - apply (route_match_literal _ _ _ _ _ E) in Hm as [_ ->].
    exists "new/". split.
    + apply (reverse_pattern_literal _ _ _ _ _ _ E).
      split; [reflexivity|]. by rewrite quote_app.
    + intros p'. split.
      * intros (pat' & kw' & Hin' & Hm' & H)%resolve_Matched_inv.
        injection H as _ <- Hname.
        apply (builds_name_inj _ _ Hin Hin') in Hname as <-.
        by apply (route_match_literal _ _ _ _ _ E) in Hm' as [? _].
      * intros Hend. apply (resolve_builds _ _ _ _ Hin).
        by apply (route_match_literal _ _ _ _ _ E).
  - destruct (proj1 (route_match_uuid _ _ _ _ _ _ E) Hm)
      as (seg & n & Hshape & Hvalue & _ & Hkw).
    subst kw. exists (seg +:+ suffix). split.
    + apply (reverse_pattern_uuid _ _ _ _ _ _ _ E Hs).
      split; [reflexivity|]. exists (PyUUID n), seg.
      split; [reflexivity|].
      split; [by apply uuid_str_of_shaped|]. split; [exact Hshape|].
      by rewrite (quote_uuid_body _ _ _ Hshape Hp).
    + intros p'. split.
      * intros (pat' & kw' & Hin' & Hm' & H)%resolve_Matched_inv.
        injection H as _ <- Hname.
        apply (builds_name_inj _ _ Hin Hin') in Hname as <-.
        apply (route_match_uuid _ _ _ _ _ _ E) in Hm'
          as (seg' & n' & Hshape' & Hvalue' & Hend & H).
        injection H as <-.
        pose proof (uuid_str_of_shaped _ _ Hshape Hvalue) as S.
        rewrite (uuid_str_of_shaped _ _ Hshape' Hvalue') in S.
        by injection S as ->.
      * intros Hend. apply (resolve_builds _ _ _ _ Hin).
        apply (route_match_uuid _ _ _ _ _ _ E). exists seg, n. auto.
Qed.

Lemma resolve_then_reverse_witness :
  let m := {| Builds.func := Builds.CreateView; Builds.kwargs := [];
              Builds.url_name := "new" |} in
  Builds.resolve Dollar Builds.urlpatterns "new/" = Matched m ∧
  ∃ body,
    reverse Dollar "/builds/" Builds.urlpatterns (Builds.url_name m)
      (Builds.kwargs m)
    = Some (escape_leading_slashes
              (quote reverse_safe "/builds/" +:+ body)) ∧
    ∀ p', Builds.resolve Dollar Builds.urlpatterns p' = Matched m ↔
          reaches_end Dollar body p'.
Proof.
  intros m.
  assert (H : Builds.resolve Dollar Builds.urlpatterns "new/" = Matched m)
    by reflexivity.
  split; [exact H|].
  exact (resolve_then_reverse Dollar "/builds/" "new/" m H).
Defined.

Lemma reverse_candidate_keywords anchor prefix pat kw :
  reverse_candidate anchor prefix pat [] kw
  = reverse_pattern anchor prefix pat kw.
Proof.
  unfold reverse_candidate, reverse_pattern, candidate_subs.
  destruct (route_to_regex (Builds.route pat)) as [ps|]; [|reflexivity].
  cbn [mbind option_bind]. by destruct (same_keys kw (param_names ps)).
Qed.

(** A call with keyword arguments only is [reverse]. *)
Lemma reverse_with_prefix_keywords anchor prefix patterns name kw :
  reverse_with_prefix anchor prefix patterns name [] kw
  = match reverse anchor prefix patterns name kw with
    | Some url => Url url
    | None => NoReverseMatch
    end.
Proof.
  unfold reverse_with_prefix, reverse.
  induction (List.filter _ _) as [|pat l IH]; [reflexivity|].
  cbn [first_some]. rewrite reverse_candidate_keywords.
  by destruct (reverse_pattern anchor prefix pat kw).
Qed.

(** A call with positional arguments fills them in as the route's
    parameters, in order. *)
Lemma reverse_candidate_positional anchor prefix pat ps v args url :
  route_to_regex (Builds.route pat) = Some ps →
  reverse_candidate anchor prefix pat (v :: args) [] = Some url →
  List.length (v :: args) = List.length (param_names ps) ∧
  reverse_pattern anchor prefix pat (combine (param_names ps) (v :: args))
  = Some url ∨
  same_keys (combine (param_names ps) (v :: args)) (param_names ps) = false.
Proof.
  intros E. unfold reverse_candidate, reverse_pattern, candidate_subs.
  rewrite E. cbn [mbind option_bind].
  destruct (Nat.eqb _ _) eqn:L; [|discriminate].
  apply Nat.eqb_eq in L. cbn [mbind option_bind].
  destruct (same_keys _ _); [|by right]. intros H. left. by split.
Qed.

Lemma reverse_with_prefix_inv anchor prefix patterns name args kw url :
  reverse_with_prefix anchor prefix patterns name args kw = Url url →
  (args = [] ∨ kw = []) ∧
  ∃ pat, In pat patterns ∧ Builds.name pat = name ∧
         reverse_candidate anchor prefix pat args kw = Some url.
Proof.
  unfold reverse_with_prefix. intros H.
  assert (Hargs : args = [] ∨ kw = []).
  { destruct args, kw; auto. discriminate. }
  split; [exact Hargs|].
  assert (first_some
            (fun pat => reverse_candidate anchor prefix pat args kw)
            (List.filter (fun pat => String.eqb (Builds.name pat) name)
               (rev patterns)) = Some url) as F.
  { destruct args, kw; try discriminate;
      destruct (first_some _ _); try discriminate; by injection H as ->. }
  apply first_some_Some in F as (pat & Hin & F).
  apply filter_In in Hin as [Hin Hn%String.eqb_eq].
  apply in_rev in Hin. eauto.
Qed.

(** [reverse] raises [NoReverseMatch], or [ValueError], unless it is
    given the name of a route of the table and exactly that route's
    arguments: none for [new], and for the other three one argument,
    positional or the keyword [pk] and no other, whose text is the
    canonical text of a UUID. *)
Theorem reverse_needs_exact_arguments
    (anchor : end_anchor) (prefix name : string) (args : list pyval)
    (kw : list (string * pyval)) (url : string) :
  reverse_with_prefix anchor prefix Builds.urlpatterns name args kw
  = Url url →
  name = "new" ∧ args = [] ∧ kw = [] ∨
  In name ["detail"; "update"; "delete"] ∧
  ∃ v seg, py_str v = Some seg ∧ uuid_shaped seg = true ∧
           (args = [v] ∧ kw = [] ∨
            args = [] ∧ kwargs_get "pk" kw = Some v ∧
            ∀ k, In k (map fst kw) → k = "pk").
Proof.
  intros (Hargs & pat & Hin & <- & H)%reverse_with_prefix_inv.
  destruct (builds_routes pat Hin) as [[-> E]|(suffix & suffix' & E & Hs & Hp)].
  - left. destruct args as [|v args].
    + rewrite reverse_candidate_keywords in H.
      apply (reverse_pattern_literal _ _ _ _ _ _ E) in H as [-> _]. auto.
    + exfalso. unfold reverse_candidate in H. rewrite E in H.
      discriminate H.
  - right. split.
    { destruct Hp as [[= _ <-]|[[= _ <-]|[[= _ <-]|[]]]]; simpl; auto. }
    destruct args as [|v args].
    + rewrite reverse_candidate_keywords in H.
      destruct (proj1 (reverse_pattern_uuid _ _ _ _ _ _ _ E Hs) H)
        as (K & v & seg & Hv & Hseg & Hshape & _).
      exists v, seg. split; [exact Hseg|]. split; [exact Hshape|].
      right. split; [reflexivity|]. split; [exact Hv|].
      intros k. by apply same_keys_one.
    + destruct Hargs as [Hargs | ->]; [discriminate Hargs|].
      destruct (reverse_candidate_positional _ _ _ _ _ _ _ E H)
        as [[L R]|K].
      * cbn [param_names omap list_omap List.length] in L, R.
        destruct args; [|discriminate L]. cbn [combine] in R.
        destruct (proj1 (reverse_pattern_uuid _ _ _ _ _ _ _ E Hs) R)
          as (_ & v' & seg & Hv & Hseg & Hshape & _).
        cbn [kwargs_get String.eqb Ascii.eqb Bool.eqb] in Hv.
        injection Hv as <-.
        exists v, seg. split; [exact Hseg|]. split; [exact Hshape|].
        by left.
      * exfalso. unfold reverse_candidate, candidate_subs in H.
        rewrite E in H. cbn [mbind option_bind] in H.
        cbn [param_names omap list_omap List.length] in H, K.
        destruct args; [discriminate K|discriminate H].
Qed.

Lemma reverse_needs_exact_arguments_witness :
  let n := 0x123456781234123412341234567890ab%Z in
  let url := "/builds/12345678-1234-1234-1234-1234567890ab/" in
  reverse_with_prefix Dollar "/builds/" Builds.urlpatterns "detail"
    [PyUUID n] [] = Url url ∧
  ("detail" = "new" ∧ [PyUUID n] = [] ∧ @nil (string * pyval) = [] ∨
   In "detail" ["detail"; "update"; "delete"] ∧
   ∃ v seg, py_str v = Some seg ∧ uuid_shaped seg = true ∧
            ([PyUUID n] = [v] ∧ @nil (string * pyval) = [] ∨
             [PyUUID n] = [] ∧ kwargs_get "pk" [] = Some v ∧
             ∀ k, In k (map fst (@nil (string * pyval))) → k = "pk")).
Proof.
  intros n url.
  assert (H : reverse_with_prefix Dollar "/builds/" Builds.urlpatterns
                "detail" [PyUUID n] [] = Url url)
    by (vm_compute; reflexivity).
  split; [exact H|].
  exact (reverse_needs_exact_arguments Dollar "/builds/" "detail"
           [PyUUID n] [] url H).
Defined.

Lemma substitute_text ps kw kw' :
  (∀ nm, kwargs_get nm kw ≫= py_str = kwargs_get nm kw' ≫= py_str) →
  substitute ps kw = substitute ps kw'.
Proof.
  intros H. induction ps as [|[text|nm conv] ps IH]; cbn [substitute].
  - reflexivity.
  - by rewrite IH.
  - rewrite IH. specialize (H nm). unfold to_url.
    destruct (kwargs_get nm kw) as [v|], (kwargs_get nm kw') as [v'|];
      cbn [mbind option_bind] in *.
    + by rewrite H.
    + by rewrite H.
    + by rewrite <- H.
    + reflexivity.
Qed.

(** A route is reversed from the text of its arguments: the canonical
    text of a UUID, passed as a [str], gives the same URL as the UUID
    itself, for every name and under every prefix. *)
Theorem reverse_accepts_uuid_text
    (anchor : end_anchor) (prefix name : string) (n : Z) (seg : string) :
  to_url UUIDConverter (PyUUID n) = Some seg →
  reverse anchor prefix Builds.urlpatterns name [("pk", PyStr seg)]
  = reverse anchor prefix Builds.urlpatterns name [("pk", PyUUID n)].
Proof.
  intros Hseg. unfold reverse.
  assert (E : ∀ pat,
            reverse_pattern anchor prefix pat [("pk", PyStr seg)]
            = reverse_pattern anchor prefix pat [("pk", PyUUID n)]).
  { intros pat. unfold reverse_pattern.
    destruct (route_to_regex (Builds.route pat)) as [ps|]; [|reflexivity].
    cbn [mbind option_bind].
    rewrite (substitute_text ps [("pk", PyStr seg)] [("pk", PyUUID n)]);
      [reflexivity|].
    intros nm. cbn [kwargs_get]. destruct (String.eqb nm "pk"); [|reflexivity].
    cbn [mbind option_bind py_str]. by rewrite <- Hseg. }
  induction (List.filter _ _) as [|pat l IH]; [reflexivity|].
  cbn [first_some]. by rewrite E, IH.
Qed.

Lemma reverse_accepts_uuid_text_witness :
  let n := 0x123456781234123412341234567890ab%Z in
  let seg := "12345678-1234-1234-1234-1234567890ab" in
  to_url UUIDConverter (PyUUID n) = Some seg ∧
  reverse Dollar "/builds/" Builds.urlpatterns "delete" [("pk", PyStr seg)]
  = reverse Dollar "/builds/" Builds.urlpatterns "delete" [("pk", PyUUID n)].
Proof.
  intros n seg.
  assert (H : to_url UUIDConverter (PyUUID n) = Some seg)
    by (vm_compute; reflexivity).
  split; [exact H|].
  exact (reverse_accepts_uuid_text Dollar "/builds/" "delete" n seg H).
Defined.
